(** * Claim reconciliation engine of the copy-trade bot

    Source: the module imported as [@/lib/claim], found in
    src/app/api/status/route.ts.

    A shallow embedding of [normalizeConditionId], [claimViaRelayer],
    [claimViaDirect] and [claimWinnings], and the properties the
    specification states about them.

    Strings are sequences of 8-bit characters ([string]); [process.env] is
    a finite map from variable names to values; the network (position
    source, relay service, chain client) is a family of oracles that answer
    each call from the calls made so far. *)

From Stdlib Require Import Ascii QArith.
From stdpp Require Import gmap strings list fin_maps.

(** ** JavaScript string primitives *)

Module JsString.

Fixpoint take (n : nat) (s : string) : string :=
  match n, s with
  | S n', String c s' => String c (take n' s')
  | _, _ => EmptyString
  end.

Fixpoint drop (n : nat) (s : string) : string :=
  match n, s with
  | S n', String _ s' => drop n' s'
  | _, _ => s
  end.

Fixpoint repeat (c : ascii) (n : nat) : string :=
  match n with
  | O => EmptyString
  | S n' => String c (repeat c n')
  end.

(** Relative index of [String.prototype.slice]: a negative index counts
    from the end, and the result is clamped to [0, len]. *)
Definition relIndex (len : nat) (i : Z) : nat :=
  if (i <? 0)%Z then Z.to_nat (Z.max (Z.of_nat len + i) 0)
  else Nat.min (Z.to_nat i) len.

(** [s.slice(start, end)]; [None] is an omitted [end]. *)
Definition slice (s : string) (start : Z) (end_ : option Z) : string :=
  let len := String.length s in
  let from := relIndex len start in
  let to := match end_ with
            | None => len
            | Some e => relIndex len e
            end in
  take (to - from) (drop from s).

(** [s.padStart(maxLength, c)] for a one-character filler [c]. *)
Definition padStart (maxLength : nat) (c : ascii) (s : string) : string :=
  repeat c (maxLength - String.length s) +:+ s.

(** [s.startsWith(p)] *)
Definition startsWith (p s : string) : bool := String.prefix p s.

(** Every character of [s] satisfies [P]. *)
Fixpoint all (P : ascii → bool) (s : string) : bool :=
  match s with
  | EmptyString => true
  | String c s' => P c && all P s'
  end.

End JsString.

(** Lowercase hexadecimal digit: [0-9a-f]. *)
Definition isLowerHexDigit (c : ascii) : bool :=
  let n := nat_of_ascii c in
  (48 <=? n) && (n <=? 57) || (97 <=? n) && (n <=? 102).

(** The pattern [^0x[0-9a-f]{64}$]. *)
Definition isBytes32Hex (s : string) : bool :=
  JsString.startsWith "0x" s
  && (String.length (JsString.drop 2 s) =? 64)
  && JsString.all isLowerHexDigit (JsString.drop 2 s).

(** ** Condition normalizer *)

(** [id.startsWith("0x") ? id.slice(2) : id] *)
Definition hexOf (id : string) : string :=
  if JsString.startsWith "0x" id then JsString.slice id 2 None else id.

Definition normalizeConditionId (id : string) : string :=
  let hex := hexOf id in
  "0x" +:+ JsString.slice (JsString.padStart 64 "0" hex) (-64) None.

(** ** Environment and strategy selection *)

(** [a ?? b]: the right operand is used only when the left one is
    [undefined]; a defined empty string is kept. *)
Definition nullish {A : Type} (a b : option A) : option A :=
  match a with
  | Some v => Some v
  | None => b
  end.

Infix "??" := nullish (at level 45, right associativity).

(** Truthiness of a [string | undefined] value. *)
Definition truthy (v : option string) : bool :=
  match v with
  | Some s => bool_decide (s ≠ "")
  | None => false
  end.

Section Environment.

(** [process.env] *)
Variable env : gmap string string.

Definition builderKey : option string :=
  env !! "POLY_BUILDER_API_KEY" ?? env !! "BUILDER_API_KEY".

Definition builderSecret : option string :=
  env !! "POLY_BUILDER_SECRET" ?? env !! "BUILDER_SECRET".

Definition builderPassphrase : option string :=
  env !! "POLY_BUILDER_PASSPHRASE" ?? env !! "BUILDER_PASSPHRASE".

Definition useRelayer : bool :=
  truthy builderKey && truthy builderSecret && truthy builderPassphrase.

End Environment.

(** The selector as the specification words it: of the two sources of a
    credential the first non-empty one wins. *)
Module SpecSelector.

Definition firstNonEmpty (a b : option string) : option string :=
  if truthy a then a else if truthy b then b else None.

Definition relayed (env : gmap string string) : bool :=
  truthy (firstNonEmpty (env !! "POLY_BUILDER_API_KEY") (env !! "BUILDER_API_KEY"))
  && truthy (firstNonEmpty (env !! "POLY_BUILDER_SECRET") (env !! "BUILDER_SECRET"))
  && truthy (firstNonEmpty (env !! "POLY_BUILDER_PASSPHRASE") (env !! "BUILDER_PASSPHRASE")).

End SpecSelector.

(** ** Data model *)

(** A JavaScript [number]. *)
Inductive JsNumber :=
| Finite (q : Q)
| PosInfinity
| NegInfinity
| NaN.

(** [n > 0] *)
Definition gtZero (n : JsNumber) : bool :=
  match n with
  | Finite q => (0 <? Qnum q)%Z
  | PosInfinity => true
  | NegInfinity | NaN => false
  end.

(** Modelled from the spec: the [Position] type of [@/lib/polymarket],
    [{ conditionId: string, size: number, redeemable: boolean }].  The
    reconciler guards against an identifier that is not a string, so
    [conditionId] is [None] for such a value. *)
Module Position.
Record t := mk {
  conditionId : option string;
  size : JsNumber;
  redeemable : bool;
}.
End Position.

Record ClaimResult := {
  claimed : nat;
  failed : nat;
  errors : list string;
  txHashes : list string;
}.

(** A thrown value, as the [catch] blocks see it:
    - [ErrorObject]: an [Error] whose [message] is a string;
    - [ErrorWithoutText]: an [Error] whose [message] is not a string, so
      that [msg.slice(0, 80)] raises [sliceRaises]; a JSON body takes the
      message as it is;
    - [ErrorUnwritable]: such an [Error] whose message, moreover, cannot be
      written into a JSON body: writing it raises [jsonRaises];
    - [OtherValue]: not an [Error], with its [String(e)] rendering;
    - [Unprintable]: not an [Error], and [String(e)] raises [raised]. *)
Inductive Thrown :=
| ErrorObject (message : string)
| ErrorWithoutText (sliceRaises : Thrown)
| ErrorUnwritable (sliceRaises jsonRaises : Thrown)
| OtherValue (rendered : string)
| Unprintable (raised : Thrown).

Inductive Completion (A : Type) :=
| Returned (a : A)
| Threw (e : Thrown).

Arguments Returned {A} a.
Arguments Threw {A} e.

(** [const msg = e instanceof Error ? e.message : String(e)] as the loops
    use it, with the [msg.slice(0, 80)] that reads it: the string that is
    sliced, or the exception that [String(e)] or [msg.slice] raises. *)
Definition messageOf (e : Thrown) : Completion string :=
  match e with
  | ErrorObject message => Returned message
  | ErrorWithoutText sliceRaises => Threw sliceRaises
  | ErrorUnwritable sliceRaises _ => Threw sliceRaises
  | OtherValue rendered => Returned rendered
  | Unprintable raised => Threw raised
  end.

(** [e instanceof Error ? e.message : String(e)] as the routes use it,
    without a slice, and with the [NextResponse.json] that writes it into
    the body: the string, or [None] for a message that is not a string and
    is written as it is, or the exception that [String(e)] or the writing
    raises. *)
Definition errOf (e : Thrown) : Completion (option string) :=
  match e with
  | ErrorObject message => Returned (Some message)
  | ErrorWithoutText _ => Returned None
  | ErrorUnwritable _ jsonRaises => Threw jsonRaises
  | OtherValue rendered => Returned (Some rendered)
  | Unprintable raised => Threw raised
  end.

Definition CHAIN_ID : Z := 137.
Definition CTF_ADDRESS : string := "0x4D97DCd97eC945f40cF65F87097ACe5EA0476045".
Definition USDC_E : string := "0x2791Bca1f2de4661ED88A30C99A7a9449Aa84174".
Definition RELAYER_URL : string := "https://relayer-v2.polymarket.com/".
Definition zeroHash : string :=
  "0x0000000000000000000000000000000000000000000000000000000000000000".

(** Arguments of [redeemPositions]. *)
Record RedeemArgs := {
  collateralToken : string;
  parentCollectionId : string;
  conditionIdArg : string;
  indexSets : list Z;
}.

Definition redeemArgs (conditionId : string) : RedeemArgs :=
  {| collateralToken := USDC_E;
     parentCollectionId := zeroHash;
     conditionIdArg := normalizeConditionId conditionId;
     indexSets := [1; 2]%Z |}.

(** The error record pushed for a failed condition:
    [`${conditionId.slice(0, 10)}…: ${msg.slice(0, 80)}`].  The ellipsis of
    the separator is one character of the source and three bytes here; the
    [console.error] that follows the push leaves [result] alone and is not
    modelled. *)
Definition errorSeparator : string := "…: ".

Definition errorRecord (conditionId msg : string) : string :=
  JsString.slice conditionId 0 (Some 10%Z)
  +:+ errorSeparator
  +:+ JsString.slice msg 0 (Some 80%Z).

(** The error record as the specification words it: the first 10
    characters of the condition id followed by the first 80 characters of
    the message. *)
Module SpecRecord.

Definition errorRecord (conditionId msg : string) : string :=
  JsString.slice conditionId 0 (Some 10%Z)
  +:+ JsString.slice msg 0 (Some 80%Z).

End SpecRecord.

(** ** The outside world *)

(** Calls that leave the process. *)
Inductive Call :=
| GetPositions (address : string) (limit : Z)
| RelayerSetup (privateKey key secret passphrase : string)
| RelayerExecute (to : string) (args : RedeemArgs) (value memo : string)
| DirectSetup (privateKey : string)
| DirectRedeem (args : RedeemArgs).

(** How the world answers, given the calls made before.
    - [getPositions]: the position source.
    - [relayerSetup]: account derivation and construction of the wallet and
      relay clients, which precede the loop of [claimViaRelayer].
    - [relayerRedeem]: encoding, [relayClient.execute] and
      [response.wait()]; the value is [waitResult?.transactionHash].
    - [directSetup]: construction of provider, signer and contract, which
      precede the loop of [claimViaDirect].
    - [directRedeem]: [ctf.redeemPositions] and [tx.wait()]; the value is
      [receipt?.transactionHash]. *)
Record World := {
  getPositions : list Call → string → Z → Completion (list Position.t);
  relayerSetup : list Call → string → string → string → string → Completion unit;
  relayerRedeem : list Call → RedeemArgs → Completion (option string);
  directSetup : list Call → string → Completion unit;
  directRedeem : list Call → RedeemArgs → Completion (option string);
}.

(** ** Computations: state and exceptions *)

(** State of one run: the calls made so far and the [result] object. *)
Record Run := {
  calls : list Call;
  result : ClaimResult;
}.

Definition M (A : Type) : Type := Run → Completion A * Run.

Definition ret {A : Type} (a : A) : M A := λ s, (Returned a, s).

Definition bind {A B : Type} (m : M A) (k : A → M B) : M B :=
  λ s, match m s with
       | (Returned a, s') => k a s'
       | (Threw e, s') => (Threw e, s')
       end.

Declare Scope run_scope.
Delimit Scope run_scope with run.
Notation "x <- m ;; k" := (bind m (λ x, k))
  (at level 100, m at next level, right associativity) : run_scope.
Notation "m ;; k" := (bind m (λ _, k))
  (at level 100, right associativity) : run_scope.
Local Open Scope run_scope.

(** An expression that either has a value or raises, and leaves the state
    alone. *)
Definition evaluate {A : Type} (c : Completion A) : M A := λ s, (c, s).

(** [try { body } catch (e) { handler }] *)
Definition tryCatch {A : Type} (body : M A) (handler : Thrown → M A) : M A :=
  λ s, match body s with
       | (Returned a, s') => (Returned a, s')
       | (Threw e, s') => handler e s'
       end.

(** An awaited external call. *)
Definition perform {A : Type} (c : Call) (reply : list Call → Completion A) : M A :=
  λ s, (reply (calls s), {| calls := calls s ++ [c]; result := result s |}).

Definition update (f : ClaimResult → ClaimResult) : M unit :=
  λ s, (Returned tt, {| calls := calls s; result := f (result s) |}).

(** Reads the [result] object, as in [return result]. *)
Definition readResult : M ClaimResult := λ s, (Returned (result s), s).

Definition zeroResult : ClaimResult :=
  {| claimed := 0; failed := 0; errors := []; txHashes := [] |}.

(** [result.claimed++] *)
Definition incClaimed (r : ClaimResult) : ClaimResult :=
  {| claimed := S (claimed r); failed := failed r;
     errors := errors r; txHashes := txHashes r |}.

(** [result.txHashes.push(h)] *)
Definition pushTxHash (h : string) (r : ClaimResult) : ClaimResult :=
  {| claimed := claimed r; failed := failed r;
     errors := errors r; txHashes := txHashes r ++ [h] |}.

(** [result.failed++] *)
Definition incFailed (r : ClaimResult) : ClaimResult :=
  {| claimed := claimed r; failed := S (failed r);
     errors := errors r; txHashes := txHashes r |}.

(** [result.errors.push(x)] *)
Definition pushError (x : string) (r : ClaimResult) : ClaimResult :=
  {| claimed := claimed r; failed := failed r;
     errors := errors r ++ [x]; txHashes := txHashes r |}.

(** [for (const x of xs) body] *)
Fixpoint forOf {A : Type} (xs : list A) (body : A → M unit) : M unit :=
  match xs with
  | [] => ret tt
  | x :: xs' => body x ;; forOf xs' body
  end.

(** ** Filtering and deduplication *)

(** [positions.filter((p) => p.redeemable && p.size > 0)] *)
Definition redeemablePositions (positions : list Position.t) : list Position.t :=
  filter (λ p, Position.redeemable p && gtZero (Position.size p)) positions.

(** [Array.from(new Set(xs))]: the distinct elements in the order of
    their first occurrence. *)
Fixpoint arrayFromSet {A : Type} `{EqDecision A} (xs : list A) : list A :=
  match xs with
  | [] => []
  | x :: xs' => x :: filter (λ y, y ≠ x) (arrayFromSet xs')
  end.

(** [typeof id === "string" && id.length > 0] *)
Definition nonEmptyString (id : option string) : option string :=
  match id with
  | Some s => if 0 <? String.length s then Some s else None
  | None => None
  end.

Definition conditionIdsOf (redeemable : list Position.t) : list string :=
  omap nonEmptyString (arrayFromSet (Position.conditionId <$> redeemable)).

(** ** The two redeemers *)

Section Redeemers.

Variable w : World.
Variable env : gmap string string.

Definition relayerCall (conditionId : string) : Call :=
  RelayerExecute CTF_ADDRESS (redeemArgs conditionId) "0" "Redeem winnings".

Definition directCall (conditionId : string) : Call :=
  DirectRedeem (redeemArgs conditionId).

(** Body of the loop of [claimViaRelayer]. *)
Definition relayerIteration (conditionId : string) : M unit :=
  tryCatch
    (transactionHash <- perform (relayerCall conditionId)
                          (λ h, relayerRedeem w h (redeemArgs conditionId)) ;;
     if truthy transactionHash then
       update incClaimed ;;
       update (pushTxHash (default "" transactionHash))
     else ret tt)
    (λ e,
       update incFailed ;;
       msg <- evaluate (messageOf e) ;;
       update (pushError (errorRecord conditionId msg))).

Definition claimViaRelayer (privateKey : string) (conditionIds : list string) : M unit :=
  let key := builderKey env in
  let secret := builderSecret env in
  let passphrase := builderPassphrase env in
  if negb (truthy key) || negb (truthy secret) || negb (truthy passphrase)
  then ret tt
  else
    perform (RelayerSetup privateKey (default "" key) (default "" secret)
               (default "" passphrase))
      (λ h, relayerSetup w h privateKey (default "" key) (default "" secret)
              (default "" passphrase)) ;;
    forOf conditionIds relayerIteration.

(** Body of the loop of [claimViaDirect]. *)
Definition directIteration (conditionId : string) : M unit :=
  tryCatch
    (transactionHash <- perform (directCall conditionId)
                          (λ h, directRedeem w h (redeemArgs conditionId)) ;;
     if truthy transactionHash then
       update incClaimed ;;
       update (pushTxHash (default "" transactionHash))
     else ret tt)
    (λ e,
       update incFailed ;;
       msg <- evaluate (messageOf e) ;;
       update (pushError (errorRecord conditionId msg))).

Definition claimViaDirect (privateKey : string) (conditionIds : list string) : M unit :=
  perform (DirectSetup privateKey) (λ h, directSetup w h privateKey) ;;
  forOf conditionIds directIteration.

(** ** The reconciler *)

Definition claimWinnings (privateKey myAddress : string) : M ClaimResult :=
  update (λ _, zeroResult) ;;
  positions <- perform (GetPositions myAddress 200)
                 (λ h, getPositions w h myAddress 200) ;;
  let redeemable := redeemablePositions positions in
  if length redeemable =? 0 then readResult
  else
    let conditionIds := conditionIdsOf redeemable in
    (if useRelayer env
     then claimViaRelayer privateKey conditionIds
     else claimViaDirect privateKey conditionIds) ;;
    readResult.

End Redeemers.

(** A run of [claimWinnings] from a fresh process state. *)
Definition start : Run := {| calls := []; result := zeroResult |}.


(** ** One iteration as a step on the accumulator *)

(** What an iteration does to [result], given how the redemption of
    [conditionId] completed. *)
Definition settle (conditionId : string) (reply : Completion (option string))
    (r : ClaimResult) : ClaimResult :=
  match reply with
  | Returned transactionHash =>
      if truthy transactionHash
      then pushTxHash (default "" transactionHash) (incClaimed r)
      else r
  | Threw e =>
      match messageOf e with
      | Returned msg => pushError (errorRecord conditionId msg) (incFailed r)
      | Threw _ => incFailed r
      end
  end.

(** What escapes from an iteration: the exception its handler raises on a
    caught value it cannot turn into a message. *)
Definition escapes (reply : Completion (option string)) : option Thrown :=
  match reply with
  | Returned _ => None
  | Threw e =>
      match messageOf e with
      | Returned _ => None
      | Threw raised => Some raised
      end
  end.

(** The loop: it stops at the first iteration from which something
    escapes. *)
Fixpoint settleAll (mkCall : string → Call)
    (reply : list Call → RedeemArgs → Completion (option string))
    (conditionIds : list string) (s : Run) : Completion unit * Run :=
  match conditionIds with
  | [] => (Returned tt, s)
  | conditionId :: rest =>
      let completion := reply (calls s) (redeemArgs conditionId) in
      let s1 := {| calls := calls s ++ [mkCall conditionId];
                   result := settle conditionId completion (result s) |} in
      match escapes completion with
      | Some raised => (Threw raised, s1)
      | None => settleAll mkCall reply rest s1
      end
  end.

(** The handlers of the loops can turn [e] into a message. *)
Definition renderable (e : Thrown) : Prop := ∃ msg, messageOf e = Returned msg.

(** Whatever a redemption throws, on either path, the handlers of the
    loops can turn into a message. *)
Definition rendersFailures (w : World) : Prop :=
  ∀ h args e,
    relayerRedeem w h args = Threw e ∨ directRedeem w h args = Threw e →
    renderable e.

(** The end of [claimWinnings] after a redeemer: its exception, or
    [return result]. *)
Definition finish (run : Completion unit * Run) : Completion ClaimResult * Run :=
  (match run.1 with
   | Returned _ => Returned (result run.2)
   | Threw e => Threw e
   end,
   run.2).

(** State right after the position fetch of [claimWinnings]. *)
Definition afterFetch (s : Run) (myAddress : string) : Run :=
  {| calls := calls s ++ [GetPositions myAddress 200]; result := zeroResult |}.

Definition relayerSetupCall (env : gmap string string) (privateKey : string) : Call :=
  RelayerSetup privateKey (default "" (builderKey env))
    (default "" (builderSecret env)) (default "" (builderPassphrase env)).

(** State right after the client setup of a redeemer. *)
Definition afterSetup (s : Run) (setup : Call) : Run :=
  {| calls := calls s ++ [setup]; result := result s |}.

(** ** Observations on a run *)

Definition isRedeemCall (c : Call) : bool :=
  match c with
  | RelayerExecute _ _ _ _ | DirectRedeem _ => true
  | _ => false
  end.

Definition isRelayerCall (c : Call) : bool :=
  match c with
  | RelayerSetup _ _ _ _ | RelayerExecute _ _ _ _ => true
  | _ => false
  end.

Definition isDirectCall (c : Call) : bool :=
  match c with
  | DirectSetup _ | DirectRedeem _ => true
  | _ => false
  end.

(** The redemption attempts among the calls of a run. *)
Definition attempts (cs : list Call) : list Call := filter isRedeemCall cs.

(** Counters and lists of a result agree. *)
Definition consistent (r : ClaimResult) : Prop :=
  claimed r = length (txHashes r) ∧ failed r = length (errors r).

(** A credential is configured when the primary variable, if defined, is
    non-empty, and otherwise the fallback variable is defined and
    non-empty. *)
Definition configured (env : gmap string string) (primary fallback : string) : Prop :=
  match env !! primary with
  | Some v => v ≠ ""
  | None => ∃ v, env !! fallback = Some v ∧ v ≠ ""
  end.

(** The position fetch of a run started in [s] throws [e]. *)
Definition fetchThrows (w : World) (s : Run) (myAddress : string) (e : Thrown) : Prop :=
  getPositions w (calls s) myAddress 200 = Threw e.

(** The fetch returns something redeemable and the client setup of the
    selected redeemer throws [e]. *)
Definition setupThrows (w : World) (env : gmap string string) (s : Run)
    (privateKey myAddress : string) (e : Thrown) : Prop :=
  ∃ positions,
    getPositions w (calls s) myAddress 200 = Returned positions
    ∧ redeemablePositions positions ≠ []
    ∧ (if useRelayer env
       then relayerSetup w (calls (afterFetch s myAddress)) privateKey
              (default "" (builderKey env)) (default "" (builderSecret env))
              (default "" (builderPassphrase env))
       else directSetup w (calls (afterFetch s myAddress)) privateKey) = Threw e.


(** ** Scenarios *)

Module Scenario.

Definition position (id : string) (size : Z) (redeemable : bool) : Position.t :=
  Position.mk (Some id) (Finite (inject_Z size)) redeemable.

(** The example of the specification. *)
Definition examplePositions : list Position.t :=
  [position "abc" 5 true; position "abc" 3 true;
   position "def" 0 true; position "ghi" 2 false].

Definition threeConditions : list Position.t :=
  [position "0xa1" 1 true; position "0xb2" 1 true; position "0xc3" 1 true].

Definition relayerEnv : gmap string string :=
  {[ "POLY_BUILDER_API_KEY" := "key";
     "BUILDER_SECRET" := "secret";
     "POLY_BUILDER_PASSPHRASE" := "pass" ]}.

(** The primary name of the API key is defined but empty; the fallback
    name carries a key. *)
Definition shadowedEnv : gmap string string :=
  {[ "POLY_BUILDER_API_KEY" := "";
     "BUILDER_API_KEY" := "key";
     "POLY_BUILDER_SECRET" := "secret";
     "POLY_BUILDER_PASSPHRASE" := "pass" ]}.

(** A world that follows a script: fixed answers of the position source
    and of the client setup, and the [n]-th redemption of the run
    completes as the [n]-th entry of [script] (no hash once the script
    is exhausted). *)
Definition scripted (positions : Completion (list Position.t))
    (setup : Completion unit) (script : list (Completion (option string))) : World :=
  let reply (h : list Call) :=
    default (Returned None) (script !! length (attempts h)) in
  {| getPositions := λ _ _ _, positions;
     relayerSetup := λ _ _ _ _ _, setup;
     relayerRedeem := λ h _, reply h;
     directSetup := λ _ _, setup;
     directRedeem := λ h _, reply h |}.

Definition secondFailsScript : list (Completion (option string)) :=
  [Returned (Some "0xhash1"); Threw (ErrorObject "execution reverted");
   Returned (Some "0xhash3")].

(** The signing key is rejected when the signer is constructed. *)
Definition rejectedKey : World :=
  scripted (Returned examplePositions) (Threw (ErrorObject "invalid private key")) [].

(** What [String(e)] raises on an object without [toString]. *)
Definition notPrintable : Thrown :=
  ErrorObject "Cannot convert object to primitive value".


End Scenario.

(** * The routes *)

(** [NextResponse.json(body, { status })]; the status is 200 when none is
    given. *)
Record Response (B : Type) := {
  status : Z;
  body : B;
}.

Arguments status {B} _.
Arguments body {B} _.

Definition json {B : Type} (b : B) (init : option Z) : Response B :=
  {| status := default 200%Z init; body := b |}.

(** [process.env.MY_ADDRESS ?? "0x370e…"], as both route modules define
    it. *)
Definition MY_ADDRESS (env : gmap string string) : string :=
  default "0x370e81c93aa113274321339e69049187cce03bb9"
    (env !! "MY_ADDRESS" ?? Some "0x370e81c93aa113274321339e69049187cce03bb9").

Definition isFetchCall (c : Call) : bool :=
  match c with
  | GetPositions _ _ => true
  | _ => false
  end.

(** ** POST and GET of the claim-now route *)

Module ClaimNow.

Definition PRIVATE_KEY (env : gmap string string) : option string :=
  env !! "PRIVATE_KEY".

Definition maxDuration : Z := 60.

(** The bodies the route answers with: [{ error }],
    [{ ok: true, claimed, failed, errors, txHashes }], [{ ok: false, error }]
    and [{ message }].  The [error] of the third is [None] when it is the
    message of an [Error] and not a string. *)
Inductive Body :=
| ErrorOnly (error : string)
| Claimed (claimed failed : nat) (errors txHashes : list string)
| NotClaimed (error : option string)
| Message (message : string).

(** The argument of [setState]:
    [{ lastClaimAt, lastClaimResult: { claimed, failed } }]. *)
Record Stamp := {
  lastClaimAt : Z;
  lastClaimResult : nat * nat;
}.

(** What the route needs besides the network: the clock ([Date.now()]) and
    the key-value store ([setState] of [@/lib/kv]), each answering from the
    network calls made so far. *)
Record Host := {
  now : list Call → Z;
  setState : list Call → Stamp → Completion unit;
}.

(** State of one request: the run of the reconciler and the stamps handed
    to [setState]. *)
Record Server := {
  run : Run;
  stamps : list Stamp;
}.

Definition H (A : Type) : Type := Server → Completion A * Server.

Definition pure {A : Type} (a : A) : H A := λ sv, (Returned a, sv).

Definition andThen {A B : Type} (m : H A) (k : A → H B) : H B :=
  λ sv, match m sv with
        | (Returned a, sv') => k a sv'
        | (Threw e, sv') => (Threw e, sv')
        end.

Declare Scope route_scope.
Notation "x <- m ;; k" := (andThen m (λ x, k))
  (at level 100, m at next level, right associativity) : route_scope.
Notation "m ;; k" := (andThen m (λ _, k))
  (at level 100, right associativity) : route_scope.
Local Open Scope route_scope.

(** [try { body } catch (e) { handler }] *)
Definition attempt {A : Type} (body : H A) (handler : Thrown → H A) : H A :=
  λ sv, match body sv with
        | (Returned a, sv') => (Returned a, sv')
        | (Threw e, sv') => handler e sv'
        end.

(** A computation of the reconciler, run inside the request. *)
Definition liftRun {A : Type} (m : M A) : H A :=
  λ sv, let (c, s') := m (run sv) in
        (c, {| run := s'; stamps := stamps sv |}).

(** [Date.now()] *)
Definition readClock (host : Host) : H Z :=
  λ sv, (Returned (now host (calls (run sv))), sv).

(** An expression that either has a value or raises. *)
Definition compute {A : Type} (c : Completion A) : H A := λ sv, (c, sv).

(** [await setState(stamp)] *)
Definition store (host : Host) (stamp : Stamp) : H unit :=
  λ sv, (setState host (calls (run sv)) stamp,
         {| run := run sv; stamps := stamps sv ++ [stamp] |}).

Section Handlers.

Variable host : Host.
Variable w : World.
Variable env : gmap string string.

Definition POST : H (Response Body) :=
  if negb (truthy (PRIVATE_KEY env)) then
    pure (json (ErrorOnly "PRIVATE_KEY not configured") (Some 500%Z))
  else
    attempt
      (result <- liftRun (claimWinnings w env (default "" (PRIVATE_KEY env))
                            (MY_ADDRESS env)) ;;
       lastClaimAt <- readClock host ;;
       store host {| lastClaimAt := lastClaimAt;
                     lastClaimResult := (claimed result, failed result) |} ;;
       pure (json (Claimed (claimed result) (failed result) (errors result)
                     (txHashes result)) None))
      (λ e,
         err <- compute (errOf e) ;;
         pure (json (NotClaimed err) (Some 500%Z))).

Definition GET : H (Response Body) :=
  pure (json (Message "Use POST to trigger claim winnings (Claim now button)")
          (Some 200%Z)).

End Handlers.

(** A request that arrives at an idle process. *)
Definition idle : Server := {| run := start; stamps := [] |}.

(** The stamp that [POST] hands to the store after a run that ended in
    [s'] with result [r]. *)
Definition stampOf (host : Host) (r : ClaimResult) (s' : Run) : Stamp :=
  {| lastClaimAt := now host (calls s');
     lastClaimResult := (claimed r, failed r) |}.

(** What the [catch] of [POST] does with the value [e] it caught: the
    answer with status 500, or the exception that [String(e)] raises. *)
Definition answerFailure (e : Thrown) : Completion (Response Body) :=
  match errOf e with
  | Returned err => Returned (json (NotClaimed err) (Some 500%Z))
  | Threw raised => Threw raised
  end.

(** The [catch] of [POST] catches [e]: [claimWinnings] threw it, or
    [claimWinnings] returned and [setState] threw it. *)
Definition caught (host : Host) (w : World) (env : gmap string string)
    (sv : Server) (e : Thrown) : Prop :=
  let ran := claimWinnings w env (default "" (PRIVATE_KEY env)) (MY_ADDRESS env)
               (run sv) in
  ran.1 = Threw e
  ∨ ∃ r, ran.1 = Returned r
         ∧ setState host (calls ran.2) (stampOf host r ran.2) = Threw e.

End ClaimNow.

(** ** GET of the status route *)

Module StatusRoute.

(** The fields of the stored state that the response shows. *)
Definition exposed : list string :=
  ["lastTimestamp"; "lastRunAt"; "lastCopiedAt"; "lastError";
   "runsSinceLastClaim"; "lastClaimAt"; "lastClaimResult"].

Section Status.

(** Types of [@/lib/kv] and [@/lib/copy-trade], which the route only
    passes on: the configuration, the values of the fields of the state
    object, the activity list and the paper statistics. *)
Variables Config Value Activity Stats : Type.

(** The [state] object of the response; a field is [None] when the stored
    state has no such field. *)
Record StateView := {
  lastTimestamp : option Value;
  lastRunAt : option Value;
  lastCopiedAt : option Value;
  lastError : option Value;
  runsSinceLastClaim : option Value;
  lastClaimAt : option Value;
  lastClaimResult : option Value;
}.

(** The bodies the route answers with:
    [{ config, state, cashBalance, recentActivity, paperStats }] and
    [{ error }]. *)
Inductive Body :=
| Loaded (config : Config) (state : StateView) (cashBalance : JsNumber)
    (recentActivity : Activity) (paperStats : Stats)
| LoadFailed (error : string).

Definition viewOf (state : gmap string Value) : StateView :=
  {| lastTimestamp := state !! "lastTimestamp";
     lastRunAt := state !! "lastRunAt";
     lastCopiedAt := state !! "lastCopiedAt";
     lastError := state !! "lastError";
     runsSinceLastClaim := state !! "runsSinceLastClaim";
     lastClaimAt := state !! "lastClaimAt";
     lastClaimResult := state !! "lastClaimResult" |}.

(** [promise.catch(() => fallback)] *)
Definition catchWith {A : Type} (fallback : A) (c : Completion A) : Completion A :=
  match c with
  | Returned a => Returned a
  | Threw _ => Returned fallback
  end.

(** The handler, given how the five promises of its [Promise.all] settle;
    [getState] resolves to the state object and [getCashBalance] is asked
    for [MY_ADDRESS].  Whichever rejection [Promise.all] reports, the
    [catch] only logs it. *)
Definition GET (env : gmap string string)
    (getConfig : Completion Config)
    (getState : Completion (gmap string Value))
    (getCashBalance : string → Completion JsNumber)
    (getRecentActivity : Completion Activity)
    (getPaperStats : Completion Stats) : Response Body :=
  match getConfig, getState,
        catchWith (Finite 0) (getCashBalance (MY_ADDRESS env)),
        getRecentActivity, getPaperStats with
  | Returned config, Returned state, Returned cashBalance,
    Returned recentActivity, Returned paperStats =>
      json (Loaded config (viewOf state) cashBalance recentActivity paperStats)
        None
  | _, _, _, _, _ => json (LoadFailed "Failed to load status") (Some 500%Z)
  end.

End Status.

Arguments Loaded {Config Value Activity Stats} _ _ _ _ _.
Arguments LoadFailed {Config Value Activity Stats} _.
Arguments viewOf {Value} _.
Arguments GET {Config Value Activity Stats} _ _ _ _ _ _.

End StatusRoute.

(** ** POST and GET of the reset route *)

Module ResetSync.

(** The bodies the route answers with: [{ message }],
    [{ ok: true, message }] and [{ error }], whose [error] is [None] when
    it is the message of an [Error] and not a string. *)
Inductive Body :=
| Message (message : string)
| Done (message : string)
| ErrorOnly (error : option string).

Definition GET : Response Body :=
  json (Message "Use POST to reset sync state (Reset sync button)") (Some 200%Z).

(** The handler, given how [resetSyncState] of [@/lib/kv] completes. *)
Definition POST (resetSyncState : Completion unit) : Completion (Response Body) :=
  match resetSyncState with
  | Returned _ =>
      Returned
        (json (Done "Sync state reset. Next run will copy trades from the last 5 minutes.")
           None)
  | Threw e =>
      match errOf e with
      | Returned err => Returned (json (ErrorOnly err) (Some 500%Z))
      | Threw raised => Threw raised
      end
  end.

End ResetSync.

(** ** More scenarios *)

Module Scenario2.

(** A clock that counts the network calls and a store that accepts every
    stamp. *)
Definition acceptingHost : ClaimNow.Host :=
  {| ClaimNow.now := λ h, Z.of_nat (length h);
     ClaimNow.setState := λ _ _, Returned tt |}.

(** A store that is unreachable. *)
Definition unreachableStore : ClaimNow.Host :=
  {| ClaimNow.now := λ h, Z.of_nat (length h);
     ClaimNow.setState := λ _ _, Threw (ErrorObject "store unreachable") |}.

Definition keyedEnv : gmap string string :=
  {[ "PRIVATE_KEY" := "key"; "MY_ADDRESS" := "0xme" ]}.

(** A world whose redemptions are always confirmed with the same hash,
    whatever was called before. *)
Definition steady (positions : list Position.t) : World :=
  {| getPositions := λ _ _ _, Returned positions;
     relayerSetup := λ _ _ _ _ _, Returned tt;
     relayerRedeem := λ _ _, Returned (Some "0xhash");
     directSetup := λ _ _, Returned tt;
     directRedeem := λ _ _, Returned (Some "0xhash") |}.

(** A request served while the second of three redemptions fails. *)
Definition partlyFailedRequest :
    Completion (Response ClaimNow.Body) * ClaimNow.Server :=
  ClaimNow.POST acceptingHost
    (Scenario.scripted (Returned Scenario.threeConditions) (Returned tt)
       Scenario.secondFailsScript)
    keyedEnv ClaimNow.idle.

(** A position source that rejects with an object that [String] cannot
    render. *)
Definition unprintableFetch : World :=
  Scenario.scripted (Threw (Unprintable Scenario.notPrintable)) (Returned tt) [].

(** A request served while the signer rejects the key. *)
Definition rejectedRequest :
    Completion (Response ClaimNow.Body) * ClaimNow.Server :=
  ClaimNow.POST acceptingHost Scenario.rejectedKey keyedEnv ClaimNow.idle.

(** Positions that are redeemable but carry no usable identifier. *)
Definition anonymousPositions : list Position.t :=
  [Position.mk None (Finite (inject_Z 4)) true;
   Position.mk (Some "") (Finite (inject_Z 1)) true].

End Scenario2.

(** * Properties *)

(** ** Strings *)

Module JsStringFacts.

Import JsString.

Lemma append_cons (c : ascii) (s1 s2 : string) :
  String c s1 +:+ s2 = String c (s1 +:+ s2).
Proof. reflexivity. Qed.

Lemma append_nil (s : string) : "" +:+ s = s.
Proof. reflexivity. Qed.

Lemma length_app (s1 s2 : string) :
  String.length (s1 +:+ s2) = String.length s1 + String.length s2.
Proof.
  induction s1 as [|c s1 IH]; [done |].
  rewrite append_cons. simpl. by rewrite IH.
Qed.

Lemma length_repeat (c : ascii) (n : nat) : String.length (repeat c n) = n.
Proof. induction n as [|n IH]; simpl; [done | by rewrite IH]. Qed.

Lemma length_take (n : nat) (s : string) :
  String.length (take n s) = n `min` String.length s.
Proof.
  revert s; induction n as [|n IH]; intros [|c s]; simpl; try done.
  by rewrite IH.
Qed.

Lemma length_drop (n : nat) (s : string) :
  String.length (drop n s) = String.length s - n.
Proof.
  revert s; induction n as [|n IH]; intros [|c s]; simpl; done.
Qed.

Lemma take_all (n : nat) (s : string) : String.length s ≤ n → take n s = s.
Proof.
  revert s; induction n as [|n IH]; intros [|c s]; simpl; try done; try lia.
  intros Hle. f_equal. apply IH. lia.
Qed.

Lemma drop_all (n : nat) (s : string) : String.length s ≤ n → drop n s = "".
Proof.
  revert s; induction n as [|n IH]; intros [|c s]; simpl; try done; try lia.
  intros Hle. apply IH. lia.
Qed.

Lemma take_drop (n : nat) (s : string) : take n s +:+ drop n s = s.
Proof.
  revert s; induction n as [|n IH]; intros [|c s]; simpl; try done.
  by rewrite append_cons, IH.
Qed.

Lemma drop_app_ge (n : nat) (s1 s2 : string) :
  String.length s1 ≤ n → drop n (s1 +:+ s2) = drop (n - String.length s1) s2.
Proof.
  revert n; induction s1 as [|c s1 IH]; intros n; simpl.
  - intros _. by rewrite append_nil, Nat.sub_0_r.
  - destruct n as [|n]; [lia |]. intros Hle. rewrite append_cons. simpl.
    apply IH. lia.
Qed.

(** [s.slice(n)] drops the first [n] characters. *)
Lemma slice_from (s : string) (n : nat) :
  slice s (Z.of_nat n) None = drop n s.
Proof.
  unfold slice, relIndex.
  destruct (Z.ltb_spec (Z.of_nat n) 0) as [Hneg|_]; [lia |].
  rewrite Nat2Z.id.
  destruct (Nat.le_gt_cases n (String.length s)) as [Hle|Hgt].
  - rewrite Nat.min_l by done. apply take_all. rewrite length_drop. lia.
  - rewrite Nat.min_r by lia. rewrite Nat.sub_diag. simpl.
    symmetry. apply drop_all. lia.
Qed.

(** [s.slice(-n)] keeps the last [n] characters. *)
Lemma slice_last (s : string) (n : nat) :
  0 < n → slice s (- Z.of_nat n) None = drop (String.length s - n) s.
Proof.
  intros Hpos. unfold slice, relIndex.
  destruct (Z.ltb_spec (- Z.of_nat n) 0) as [_|Hnn]; [| lia].
  replace (Z.to_nat (Z.max (Z.of_nat (String.length s) + - Z.of_nat n) 0))
    with (String.length s - n) by lia.
  apply take_all. rewrite length_drop. lia.
Qed.

(** [s.slice(0, n)] keeps the first [n] characters. *)
Lemma slice_first (s : string) (n : nat) :
  slice s 0 (Some (Z.of_nat n)) = take n s.
Proof.
  unfold slice, relIndex. simpl.
  destruct (Z.ltb_spec (Z.of_nat n) 0) as [Hneg|_]; [lia |].
  rewrite Nat2Z.id, Nat.sub_0_r.
  destruct (Nat.le_gt_cases n (String.length s)) as [Hle|Hgt].
  - by rewrite Nat.min_l.
  - rewrite Nat.min_r by lia. rewrite !take_all; [done | lia | done].
Qed.

Lemma all_app (P : ascii → bool) (s1 s2 : string) :
  all P (s1 +:+ s2) = all P s1 && all P s2.
Proof.
  induction s1 as [|c s1 IH]; [done |].
  rewrite append_cons. simpl. by rewrite IH, andb_assoc.
Qed.

Lemma all_repeat (P : ascii → bool) (c : ascii) (n : nat) :
  P c = true → all P (repeat c n) = true.
Proof. intros Hc. induction n as [|n IH]; simpl; [done | by rewrite Hc, IH]. Qed.

Lemma all_drop (P : ascii → bool) (n : nat) (s : string) :
  all P s = true → all P (drop n s) = true.
Proof.
  revert s; induction n as [|n IH]; intros [|c s]; simpl; try done.
  intros [_ Hs]%andb_true_iff. by apply IH.
Qed.

End JsStringFacts.

(** ** Condition normalizer *)

Section Normalizer.

Import JsString JsStringFacts.

Lemma startsWith_0x (s : string) : startsWith "0x" ("0x" +:+ s) = true.
Proof. by destruct s. Qed.

Lemma padStart_long (n : nat) (c : ascii) (s : string) :
  n ≤ String.length s → padStart n c s = s.
Proof.
  intros Hle. unfold padStart.
  by replace (n - String.length s) with 0 by lia.
Qed.

Lemma length_padStart (n : nat) (c : ascii) (s : string) :
  String.length (padStart n c s) = n `max` String.length s.
Proof. unfold padStart. rewrite length_app, length_repeat. lia. Qed.

(** The last 64 characters of the padded string: the padding, then the
    last 64 characters of the unpadded one. *)
Lemma padded_last64 (h : string) :
  slice (padStart 64 "0" h) (-64) None
  = repeat "0" (64 - String.length h) +:+ drop (String.length h - 64) h.
Proof.
  change (-64)%Z with (- Z.of_nat 64)%Z.
  rewrite slice_last by lia. rewrite length_padStart. unfold padStart.
  destruct (Nat.le_gt_cases (String.length h) 64) as [Hle|Hgt].
  - replace (64 `max` String.length h - 64) with 0 by lia.
    by replace (String.length h - 64) with 0 by lia.
  - replace (64 - String.length h) with 0 by lia. simpl.
    rewrite !append_nil. f_equal. lia.
Qed.

Lemma length_padded_last64 (h : string) :
  String.length (slice (padStart 64 "0" h) (-64) None) = 64.
Proof. rewrite padded_last64, length_app, length_repeat, length_drop. lia. Qed.

Lemma normalize_fixes_canonical (body : string) :
  String.length body = 64 →
  normalizeConditionId ("0x" +:+ body) = "0x" +:+ body.
Proof.
  intros Hlen. unfold normalizeConditionId, hexOf.
  rewrite startsWith_0x.
  change 2%Z with (Z.of_nat 2). rewrite slice_from.
  change (drop 2 ("0x" +:+ body)) with body.
  rewrite padded_last64, Hlen. by destruct body.
Qed.

(** C6, as amended: for every input the output is [0x] followed by
    exactly 64 characters, namely the last 64 characters of the input
    stripped of an optional [0x] and left-padded with zeros to 64; these
    are lowercase hexadecimal digits exactly when the last 64 characters
    of the stripped input are: the normalizer neither validates nor
    lowercases. *)
Theorem normalize_shape (id : string) :
  ∃ body : string,
    normalizeConditionId id = "0x" +:+ body
    ∧ body = slice (padStart 64 "0" (hexOf id)) (-64) None
    ∧ String.length body = 64
    ∧ isBytes32Hex (normalizeConditionId id)
      = all isLowerHexDigit (slice (hexOf id) (-64) None).
Proof.
  exists (slice (padStart 64 "0" (hexOf id)) (-64) None).
  split; [done |]. split; [done |].
  split; [apply length_padded_last64 |].
  unfold isBytes32Hex, normalizeConditionId. cbv zeta.
  rewrite startsWith_0x.
  change (drop 2 ("0x" +:+ ?s)) with s.
  rewrite length_padded_last64, padded_last64, all_app.
  rewrite all_repeat by done.
  change (-64)%Z with (- Z.of_nat 64)%Z. by rewrite slice_last by lia.
Qed.

(** C6, as the specification states it, fails: an identifier with
    uppercase digits and one that is no hexadecimal number at all are
    non-empty, and their normal forms are not made of lowercase
    hexadecimal digits. *)
Lemma normalize_not_always_lowercase_hex :
  normalizeConditionId "0xABC"
  = "0x0000000000000000000000000000000000000000000000000000000000000ABC"
  ∧ isBytes32Hex (normalizeConditionId "0xABC") = false
  ∧ normalizeConditionId "yes"
    = "0x0000000000000000000000000000000000000000000000000000000000000yes"
  ∧ isBytes32Hex (normalizeConditionId "yes") = false.
Proof. repeat split; vm_compute; reflexivity. Qed.

(** C7: the normalizer is idempotent. *)
Theorem normalize_idempotent (x : string) :
  normalizeConditionId (normalizeConditionId x) = normalizeConditionId x.
Proof.
  change (normalizeConditionId x)
    with ("0x" +:+ slice (padStart 64 "0" (hexOf x)) (-64) None).
  apply normalize_fixes_canonical, length_padded_last64.
Qed.

End Normalizer.

(** ** The loops *)

Section Loops.

Variable w : World.

Lemma relayerIteration_settle (conditionId : string) (s : Run) :
  relayerIteration w conditionId s
  = (match escapes (relayerRedeem w (calls s) (redeemArgs conditionId)) with
     | Some raised => Threw raised
     | None => Returned tt
     end,
     {| calls := calls s ++ [relayerCall conditionId];
        result := settle conditionId
                    (relayerRedeem w (calls s) (redeemArgs conditionId))
                    (result s) |}).
Proof.
  unfold relayerIteration, tryCatch, bind, perform, update, evaluate, ret,
    settle, escapes.
  destruct (relayerRedeem w (calls s) (redeemArgs conditionId)) as [h|e];
    [destruct (truthy h) | destruct (messageOf e)]; done.
Qed.

Lemma directIteration_settle (conditionId : string) (s : Run) :
  directIteration w conditionId s
  = (match escapes (directRedeem w (calls s) (redeemArgs conditionId)) with
     | Some raised => Threw raised
     | None => Returned tt
     end,
     {| calls := calls s ++ [directCall conditionId];
        result := settle conditionId
                    (directRedeem w (calls s) (redeemArgs conditionId))
                    (result s) |}).
Proof.
  unfold directIteration, tryCatch, bind, perform, update, evaluate, ret,
    settle, escapes.
  destruct (directRedeem w (calls s) (redeemArgs conditionId)) as [h|e];
    [destruct (truthy h) | destruct (messageOf e)]; done.
Qed.

Lemma forOf_settleAll (mkCall : string → Call)
    (reply : list Call → RedeemArgs → Completion (option string))
    (body : string → M unit) (conditionIds : list string) (s : Run) :
  (∀ id s0, body id s0
            = (match escapes (reply (calls s0) (redeemArgs id)) with
               | Some raised => Threw raised
               | None => Returned tt
               end,
               {| calls := calls s0 ++ [mkCall id];
                  result := settle id (reply (calls s0) (redeemArgs id))
                              (result s0) |})) →
  forOf conditionIds body s = settleAll mkCall reply conditionIds s.
Proof.
  intros Hbody. revert s.
  induction conditionIds as [|id ids IH]; intros s; [done |].
  simpl. unfold bind at 1. rewrite Hbody.
  destruct (escapes _); [done | apply IH].
Qed.

Lemma claimViaDirect_run (privateKey : string) (conditionIds : list string) (s : Run) :
  claimViaDirect w privateKey conditionIds s
  = match directSetup w (calls s) privateKey with
    | Returned _ =>
        settleAll directCall (directRedeem w) conditionIds
          (afterSetup s (DirectSetup privateKey))
    | Threw e => (Threw e, afterSetup s (DirectSetup privateKey))
    end.
Proof.
  unfold claimViaDirect, bind at 1, perform.
  destruct (directSetup w (calls s) privateKey) as [[]|e]; [| done].
  apply forOf_settleAll, directIteration_settle.
Qed.

Lemma claimViaRelayer_run (env : gmap string string) (privateKey : string)
    (conditionIds : list string) (s : Run) :
  useRelayer env = true →
  claimViaRelayer w env privateKey conditionIds s
  = match relayerSetup w (calls s) privateKey (default "" (builderKey env))
            (default "" (builderSecret env)) (default "" (builderPassphrase env)) with
    | Returned _ =>
        settleAll relayerCall (relayerRedeem w) conditionIds
          (afterSetup s (relayerSetupCall env privateKey))
    | Threw e => (Threw e, afterSetup s (relayerSetupCall env privateKey))
    end.
Proof.
  unfold useRelayer, claimViaRelayer.
  intros [[-> ->]%andb_true_iff ->]%andb_true_iff. simpl.
  unfold bind at 1, perform.
  destruct (relayerSetup _ _ _ _ _ _) as [[]|e]; [| done].
  apply forOf_settleAll, relayerIteration_settle.
Qed.

End Loops.

(** ** The accumulator *)

Section Accumulator.

Variable mkCall : string → Call.
Variable reply : list Call → RedeemArgs → Completion (option string).

(** A loop that returns has called once for every condition, in order. *)
Lemma calls_settleAll (conditionIds : list string) (s : Run) :
  (settleAll mkCall reply conditionIds s).1 = Returned tt →
  calls (settleAll mkCall reply conditionIds s).2
  = calls s ++ (mkCall <$> conditionIds).
Proof.
  revert s. induction conditionIds as [|id ids IH]; intros s; simpl.
  - by rewrite app_nil_r.
  - destruct (escapes _); [done |]. intros Hloop.
    rewrite IH by done. simpl. by rewrite <- app_assoc.
Qed.

(** A loop, returning or not, has called once for each of the conditions
    it came to. *)
Lemma calls_settleAll_started (conditionIds : list string) (s : Run) :
  ∃ started,
    calls (settleAll mkCall reply conditionIds s).2 = calls s ++ (mkCall <$> started).
Proof.
  revert s. induction conditionIds as [|id ids IH]; intros s; simpl.
  - exists []. by rewrite app_nil_r.
  - destruct (escapes _).
    + by exists [id].
    + destruct (IH {| calls := calls s ++ [mkCall id];
                      result := settle id (reply (calls s) (redeemArgs id))
                                  (result s) |}) as (started & ->).
      exists (id :: started). simpl. by rewrite <- app_assoc.
Qed.

Lemma escapes_renderable (c : Completion (option string)) :
  (∀ e, c = Threw e → renderable e) → escapes c = None.
Proof.
  intros Hc. destruct c as [h|e]; [done |].
  destruct (Hc e eq_refl) as (msg & Hmsg). simpl. by rewrite Hmsg.
Qed.

(** When every failure can be turned into a message, the loop returns. *)
Lemma settleAll_returns (conditionIds : list string) (s : Run) :
  (∀ h args e, reply h args = Threw e → renderable e) →
  (settleAll mkCall reply conditionIds s).1 = Returned tt.
Proof.
  intros Hreply. revert s.
  induction conditionIds as [|id ids IH]; intros s; simpl; [done |].
  rewrite escapes_renderable by (intros e; apply Hreply). apply IH.
Qed.

(** A property of the result that every iteration that returns keeps is
    kept by a loop that returns. *)
Lemma settleAll_preserves (P : ClaimResult → Prop) (conditionIds : list string)
    (s : Run) :
  (∀ id c r, escapes c = None → P r → P (settle id c r)) →
  (settleAll mkCall reply conditionIds s).1 = Returned tt →
  P (result s) → P (result (settleAll mkCall reply conditionIds s).2).
Proof.
  intros Hstep. revert s.
  induction conditionIds as [|id ids IH]; intros s; simpl; [done |].
  destruct (escapes _) eqn:Hescapes; [done |]. intros Hloop Hs.
  apply IH; [done |]. simpl. by apply Hstep.
Qed.

Lemma consistent_settle (conditionId : string) (c : Completion (option string))
    (r : ClaimResult) :
  escapes c = None → consistent r → consistent (settle conditionId c r).
Proof.
  unfold consistent, settle, escapes. intros Hc [Hclaimed Hfailed].
  destruct c as [h|e]; [destruct (truthy h) | destruct (messageOf e); [| done]];
    simpl; rewrite ?length_app; simpl; lia.
Qed.

Lemma consistent_settleAll (conditionIds : list string) (s : Run) :
  (settleAll mkCall reply conditionIds s).1 = Returned tt →
  consistent (result s) →
  consistent (result (settleAll mkCall reply conditionIds s).2).
Proof. apply settleAll_preserves. intros id c r. apply consistent_settle. Qed.

End Accumulator.

(** ** Filtering and deduplication *)

Section Dedup.

Context {A : Type} `{EqDecision A}.

Lemma elem_of_arrayFromSet (xs : list A) (x : A) :
  x ∈ arrayFromSet xs ↔ x ∈ xs.
Proof.
  induction xs as [|y xs IH]; simpl; [by rewrite !elem_of_nil |].
  rewrite !elem_of_cons, list_elem_of_filter, IH.
  destruct (decide (x = y)); tauto.
Qed.

Lemma NoDup_arrayFromSet (xs : list A) : NoDup (arrayFromSet xs).
Proof.
  induction xs as [|y xs IH]; simpl; [constructor |].
  constructor; [| by apply NoDup_filter].
  rewrite list_elem_of_filter. by intros [Hne _].
Qed.

Lemma NoDup_omap {B : Type} (f : A → option B) (xs : list A) :
  (∀ x y z, f x = Some z → f y = Some z → x = y) →
  NoDup xs → NoDup (omap f xs).
Proof.
  intros Hinj. induction 1 as [|x xs Hx Hxs IH]; simpl; [constructor |].
  destruct (f x) as [z|] eqn:Hfx; [| done].
  constructor; [| done].
  rewrite list_elem_of_omap. intros (y & Hy & Hfy).
  by rewrite (Hinj x y z Hfx Hfy) in Hx.
Qed.

End Dedup.

Lemma nonEmptyString_Some (id : option string) (s : string) :
  nonEmptyString id = Some s ↔ id = Some s ∧ s ≠ "".
Proof.
  destruct id as [[|c t]|]; simpl; split; try done.
  - by intros [[= <-] Hne].
  - by intros [= <-].
  - by intros [Heq _].
  - by intros [Heq _].
Qed.

Lemma elem_of_redeemablePositions (positions : list Position.t) (p : Position.t) :
  p ∈ redeemablePositions positions
  ↔ p ∈ positions ∧ Position.redeemable p = true ∧ gtZero (Position.size p) = true.
Proof.
  unfold redeemablePositions. rewrite list_elem_of_filter.
  rewrite andb_True, !Is_true_true. tauto.
Qed.

(** [n > 0] on finite numbers is the order of the rationals. *)
Lemma gtZero_Finite (q : Q) : gtZero (Finite q) = true ↔ (0 < q)%Q.
Proof.
  unfold gtZero, Qlt. simpl. rewrite Z.ltb_lt. lia.
Qed.

Lemma elem_of_conditionIdsOf (positions : list Position.t) (id : string) :
  id ∈ conditionIdsOf (redeemablePositions positions)
  ↔ id ≠ ""
    ∧ ∃ p, p ∈ positions ∧ Position.redeemable p = true
           ∧ gtZero (Position.size p) = true
           ∧ Position.conditionId p = Some id.
Proof.
  unfold conditionIdsOf. rewrite list_elem_of_omap. split.
  - intros (x & Hx & [-> Hne]%nonEmptyString_Some). split; [done |].
    apply elem_of_arrayFromSet, list_elem_of_fmap in Hx as (p & Hp & Hin).
    apply elem_of_redeemablePositions in Hin as (? & ? & ?). eauto 6.
  - intros (Hne & p & Hin & Hr & Hs & Hid). exists (Some id). split.
    + apply elem_of_arrayFromSet, list_elem_of_fmap. exists p. split; [done |].
      by apply elem_of_redeemablePositions.
    + by apply nonEmptyString_Some.
Qed.

Lemma NoDup_conditionIdsOf (redeemable : list Position.t) :
  NoDup (conditionIdsOf redeemable).
Proof.
  apply NoDup_omap; [| apply NoDup_arrayFromSet].
  intros x y z [-> _]%nonEmptyString_Some [-> _]%nonEmptyString_Some. done.
Qed.

(** ** The reconciler, case by case *)

Section Reconciler.

Variable w : World.
Variable env : gmap string string.
Variables privateKey myAddress : string.

Lemma claimWinnings_fetch_throws (s : Run) (e : Thrown) :
  getPositions w (calls s) myAddress 200 = Threw e →
  claimWinnings w env privateKey myAddress s = (Threw e, afterFetch s myAddress).
Proof.
  intros Hfetch. unfold claimWinnings, bind, update, perform, readResult. simpl.
  by rewrite Hfetch.
Qed.

Lemma claimWinnings_nothing (s : Run) (positions : list Position.t) :
  getPositions w (calls s) myAddress 200 = Returned positions →
  redeemablePositions positions = [] →
  claimWinnings w env privateKey myAddress s
  = (Returned zeroResult, afterFetch s myAddress).
Proof.
  intros Hfetch Hnone. unfold claimWinnings, bind, update, perform, readResult. simpl.
  by rewrite Hfetch, Hnone.
Qed.

Lemma claimWinnings_direct (s : Run) (positions : list Position.t) :
  getPositions w (calls s) myAddress 200 = Returned positions →
  redeemablePositions positions ≠ [] →
  useRelayer env = false →
  claimWinnings w env privateKey myAddress s
  = match directSetup w (calls (afterFetch s myAddress)) privateKey with
    | Returned _ =>
        finish (settleAll directCall (directRedeem w)
                  (conditionIdsOf (redeemablePositions positions))
                  (afterSetup (afterFetch s myAddress) (DirectSetup privateKey)))
    | Threw e =>
        (Threw e, afterSetup (afterFetch s myAddress) (DirectSetup privateKey))
    end.
Proof.
  intros Hfetch Hsome Hdirect.
  unfold claimWinnings, bind, update, perform, readResult. simpl.
  rewrite Hfetch, Hdirect.
  destruct (redeemablePositions positions) as [|p ps] eqn:Hps; [done |]. simpl.
  rewrite claimViaDirect_run. fold (afterFetch s myAddress).
  destruct (directSetup _ _ _); [| done].
  by destruct (settleAll _ _ _ _) as [[[]|e] s'].
Qed.

Lemma claimWinnings_relayed (s : Run) (positions : list Position.t) :
  getPositions w (calls s) myAddress 200 = Returned positions →
  redeemablePositions positions ≠ [] →
  useRelayer env = true →
  claimWinnings w env privateKey myAddress s
  = match relayerSetup w (calls (afterFetch s myAddress)) privateKey
            (default "" (builderKey env)) (default "" (builderSecret env))
            (default "" (builderPassphrase env)) with
    | Returned _ =>
        finish (settleAll relayerCall (relayerRedeem w)
                  (conditionIdsOf (redeemablePositions positions))
                  (afterSetup (afterFetch s myAddress)
                     (relayerSetupCall env privateKey)))
    | Threw e =>
        (Threw e,
         afterSetup (afterFetch s myAddress) (relayerSetupCall env privateKey))
    end.
Proof.
  intros Hfetch Hsome Hrelayed.
  unfold claimWinnings, bind, update, perform, readResult. simpl.
  rewrite Hfetch, Hrelayed.
  destruct (redeemablePositions positions) as [|p ps] eqn:Hps; [done |]. simpl.
  rewrite claimViaRelayer_run by done. fold (afterFetch s myAddress).
  destruct (relayerSetup _ _ _ _ _ _); [| done].
  by destruct (settleAll _ _ _ _) as [[[]|e] s'].
Qed.

End Reconciler.

(** Case analysis on a run of [claimWinnings], in this order: nothing is
    redeemable; the relayed redeemer is selected and its loop returns, its
    loop throws, or its setup throws; the same three for the direct
    redeemer; the position fetch throws. *)
Ltac claimWinnings_cases w env privateKey myAddress s :=
  let positions := fresh "positions" in
  let e := fresh "e" in
  let s' := fresh "s'" in
  let Hfetch := fresh "Hfetch" in
  let Hnone := fresh "Hnone" in
  let Hsome := fresh "Hsome" in
  let Hsel := fresh "Hsel" in
  let Hsetup := fresh "Hsetup" in
  let Hloop := fresh "Hloop" in
  destruct (getPositions w (calls s) myAddress 200) as [positions|e] eqn:Hfetch;
  [ destruct (decide (redeemablePositions positions = [])) as [Hnone|Hsome];
    [ rewrite (claimWinnings_nothing w env privateKey myAddress s positions
                 Hfetch Hnone)
    | destruct (useRelayer env) eqn:Hsel;
      [ rewrite (claimWinnings_relayed w env privateKey myAddress s positions
                   Hfetch Hsome Hsel);
        destruct (relayerSetup w _ _ _ _ _) as [[]|e] eqn:Hsetup;
        [ destruct (settleAll relayerCall _ _ _) as [[[]|e] s'] eqn:Hloop;
          unfold finish; cbn [fst snd] | ]
      | rewrite (claimWinnings_direct w env privateKey myAddress s positions
                   Hfetch Hsome Hsel);
        destruct (directSetup w _ _) as [[]|e] eqn:Hsetup;
        [ destruct (settleAll directCall _ _ _) as [[[]|e] s'] eqn:Hloop;
          unfold finish; cbn [fst snd] | ] ] ]
  | rewrite (claimWinnings_fetch_throws w env privateKey myAddress s e Hfetch) ].

(** What the equation of a loop that returned says of the calls it made. *)
Ltac loop_returned Hloop :=
  let Hcalls := fresh "Hcalls" in
  match type of Hloop with
  | settleAll ?mk ?reply ?ids ?s0 = (Returned tt, ?s') =>
      pose proof (calls_settleAll mk reply ids s0) as Hcalls;
      rewrite Hloop in Hcalls; specialize (Hcalls eq_refl);
      cbn [fst snd] in Hcalls
  end.

(** What the equation of a loop says of the state it ended in. *)
Ltac loop_facts Hloop :=
  let Hcalls := fresh "Hcalls" in
  let started := fresh "started" in
  match type of Hloop with
  | settleAll ?mk ?reply ?ids ?s0 = (?c, ?s') =>
      destruct (calls_settleAll_started mk reply ids s0) as (started & Hcalls);
      rewrite Hloop in Hcalls; cbn [fst snd] in Hcalls
  end.

(** ** Strategy selection *)

Lemma truthy_true (v : option string) :
  truthy v = true ↔ ∃ s, v = Some s ∧ s ≠ "".
Proof.
  destruct v as [s|]; simpl.
  - rewrite bool_decide_eq_true. split; [eauto | by intros (? & [= <-] & ?)].
  - split; [done | by intros (? & ? & ?)].
Qed.

Lemma truthy_nullish (env : gmap string string) (primary fallback : string) :
  truthy (env !! primary ?? env !! fallback) = true ↔ configured env primary fallback.
Proof.
  unfold configured, nullish. destruct (env !! primary) as [v|].
  - simpl. by rewrite bool_decide_eq_true.
  - apply truthy_true.
Qed.

Lemma useRelayer_shadowed (env : gmap string string) (name : string) :
  name = "POLY_BUILDER_API_KEY" ∨ name = "POLY_BUILDER_SECRET"
  ∨ name = "POLY_BUILDER_PASSPHRASE" →
  useRelayer (<[name := ""]> env) = false.
Proof.
  unfold useRelayer, builderKey, builderSecret, builderPassphrase.
  intros [-> | [-> | ->]]; rewrite lookup_insert_eq; simpl;
    by rewrite ?andb_false_r.
Qed.

Lemma calls_claimWinnings_one_redeemer (w : World) (env : gmap string string)
    (privateKey myAddress : string) :
  Forall (λ c, if useRelayer env then isDirectCall c = false
               else isRelayerCall c = false)
    (calls (claimWinnings w env privateKey myAddress start).2).
Proof.
  claimWinnings_cases w env privateKey myAddress start;
    try loop_facts Hloop; simpl; try rewrite Hcalls; simpl;
    repeat constructor; try (by destruct (useRelayer env));
    by apply Forall_fmap, Forall_true.
Qed.

(** C1, as the specification states it, fails: with the primary name of
    the API key defined but empty and the fallback name set, the first
    non-empty values of all three credentials are present, yet the direct
    strategy is selected. *)
Lemma first_non_empty_does_not_win :
  SpecSelector.relayed Scenario.shadowedEnv = true
  ∧ useRelayer Scenario.shadowedEnv = false.
Proof. split; vm_compute; reflexivity. Qed.

(** C1, as amended: the relayed strategy is selected if and only if all
    three credentials are non-empty, where a credential is the value of its
    primary variable whenever that variable is defined (even as the empty
    string) and the value of the fallback variable only otherwise; setting
    the primary variable of any one credential to the empty string selects
    the direct strategy; and the selection holds for the whole run: a run
    under the relayed strategy makes no call of the direct redeemer, and a
    run under the direct strategy none of the relayed one. *)
Theorem strategy_selection (env : gmap string string) :
  (useRelayer env = true
   ↔ configured env "POLY_BUILDER_API_KEY" "BUILDER_API_KEY"
     ∧ configured env "POLY_BUILDER_SECRET" "BUILDER_SECRET"
     ∧ configured env "POLY_BUILDER_PASSPHRASE" "BUILDER_PASSPHRASE")
  ∧ useRelayer (<["POLY_BUILDER_API_KEY" := ""]> env) = false
  ∧ useRelayer (<["POLY_BUILDER_SECRET" := ""]> env) = false
  ∧ useRelayer (<["POLY_BUILDER_PASSPHRASE" := ""]> env) = false
  ∧ ∀ (w : World) (privateKey myAddress : string),
      Forall (λ c, if useRelayer env then isDirectCall c = false
                   else isRelayerCall c = false)
        (calls (claimWinnings w env privateKey myAddress start).2).
Proof.
  split.
  { unfold useRelayer, builderKey, builderSecret, builderPassphrase.
    rewrite !andb_true_iff, !truthy_nullish. tauto. }
  repeat split; try (apply useRelayer_shadowed; tauto).
  intros. apply calls_claimWinnings_one_redeemer.
Qed.

Lemma strategy_selection_witness : useRelayer Scenario.relayerEnv = true.
Proof.
  apply (strategy_selection Scenario.relayerEnv).
  repeat split; vm_compute; try discriminate.
  exists "secret"%string. split; [reflexivity | discriminate].
Defined.

(** ** What a run propagates *)

(** C2, as the specification states it, fails: the position fetch
    succeeds, yet the run throws, because the construction of the signer
    precedes the loop and lies outside its [try]. *)
Lemma throws_although_fetch_succeeded :
  getPositions Scenario.rejectedKey [] "0xme" 200
  = Returned Scenario.examplePositions
  ∧ (claimWinnings Scenario.rejectedKey ∅ "not a key" "0xme" start).1
    = Threw (ErrorObject "invalid private key").
Proof. split; vm_compute; reflexivity. Qed.

Lemma relayer_loop_returns (w : World) (conditionIds : list string) (s : Run) :
  rendersFailures w →
  (settleAll relayerCall (relayerRedeem w) conditionIds s).1 = Returned tt.
Proof. intros Hw. apply settleAll_returns. intros h args e He. eapply Hw. eauto. Qed.

Lemma direct_loop_returns (w : World) (conditionIds : list string) (s : Run) :
  rendersFailures w →
  (settleAll directCall (directRedeem w) conditionIds s).1 = Returned tt.
Proof. intros Hw. apply settleAll_returns. intros h args e He. eapply Hw. eauto. Qed.

(** A loop that threw, in a world whose failures can all be turned into
    messages, is absurd. *)
Ltac loop_cannot_throw Hw Hloop :=
  let Hreturns := fresh "Hreturns" in
  exfalso;
  match type of Hloop with
  | settleAll relayerCall _ ?ids ?s0 = _ =>
      pose proof (relayer_loop_returns _ ids s0 Hw) as Hreturns
  | settleAll directCall _ ?ids ?s0 = _ =>
      pose proof (direct_loop_returns _ ids s0 Hw) as Hreturns
  end;
  rewrite Hloop in Hreturns; discriminate Hreturns.

(** C2, as amended: [claimWinnings] propagates an exception when the
    position fetch throws it, and when the fetch returns a redeemable
    position and the client setup of the selected redeemer (the code
    before its loop) throws it; as long as whatever a redemption throws is
    an [Error] with a string message or a value that [String] renders,
    these are the only cases, and in every other case it returns a result:
    such failures of individual conditions are recorded and never
    propagated. *)
Theorem claimWinnings_throws_iff (w : World) (env : gmap string string)
    (privateKey myAddress : string) (s : Run) :
  rendersFailures w →
  (∀ e, (∃ s', claimWinnings w env privateKey myAddress s = (Threw e, s'))
        ↔ fetchThrows w s myAddress e ∨ setupThrows w env s privateKey myAddress e)
  ∧ ((∀ e, ¬ fetchThrows w s myAddress e
           ∧ ¬ setupThrows w env s privateKey myAddress e) →
     ∃ r s', claimWinnings w env privateKey myAddress s = (Returned r, s')).
Proof.
  intros Hw. unfold fetchThrows, setupThrows.
  claimWinnings_cases w env privateKey myAddress s;
    try (by loop_cannot_throw Hw Hloop); split.
  - intros e0. split; [by intros (? & ?) |].
    intros [? | (ps & [= <-] & Hne & _)]; done.
  - eauto.
  - intros e0. split; [by intros (? & ?) |].
    intros [? | (ps & _ & _ & ?)]; done.
  - eauto.
  - intros e0. split.
    + intros (? & [= <- _]). right. eauto.
    + intros [? | (ps & _ & _ & [= <-])]; [done | eauto].
  - intros Hno. destruct (Hno e) as [_ []]. eauto.
  - intros e0. split; [by intros (? & ?) |].
    intros [? | (ps & _ & _ & ?)]; done.
  - eauto.
  - intros e0. split.
    + intros (? & [= <- _]). right. eauto.
    + intros [? | (ps & _ & _ & [= <-])]; [done | eauto].
  - intros Hno. destruct (Hno e) as [_ []]. eauto.
  - intros e0. split.
    + intros (? & [= <- _]). by left.
    + intros [[= <-] | (? & ? & _)]; [eauto | done].
  - intros Hno. by destruct (Hno e) as [Hf _].
Qed.

(** A scripted world renders its failures when every failure of its
    script can be turned into a message. *)
Lemma scripted_renders (positions : Completion (list Position.t))
    (setup : Completion unit) (script : list (Completion (option string))) :
  Forall (λ c, ∀ e, c = Threw e → renderable e) script →
  rendersFailures (Scenario.scripted positions setup script).
Proof.
  intros Hscript h args e. simpl.
  destruct (script !! length (attempts h)) as [c|] eqn:Hc; simpl.
  - intros [He | He]; by eapply (Forall_lookup_1 _ _ _ _ Hscript Hc).
  - by intros [He | He].
Qed.

Lemma claimWinnings_throws_iff_witness :
  ∃ s', claimWinnings Scenario.rejectedKey Scenario.relayerEnv "not a key" "0xme" start
        = (Threw (ErrorObject "invalid private key"), s').
Proof.
  assert (rendersFailures Scenario.rejectedKey) as Hw
    by (apply scripted_renders; constructor).
  apply (proj1 (claimWinnings_throws_iff Scenario.rejectedKey Scenario.relayerEnv
                  "not a key" "0xme" start Hw)
           (ErrorObject "invalid private key")).
  right. exists Scenario.examplePositions.
  split; [reflexivity |]. split; [discriminate |]. reflexivity.
Defined.

(** ** Nothing to redeem *)

(** C3: when no fetched position is redeemable with a positive size, the
    run returns the zero-valued result, and the position fetch is the only
    call it makes: no redeemer is set up or invoked. *)
Theorem nothing_redeemable (w : World) (env : gmap string string)
    (privateKey myAddress : string) (s : Run) (positions : list Position.t) :
  getPositions w (calls s) myAddress 200 = Returned positions →
  (∀ p, p ∈ positions →
        ¬ (Position.redeemable p = true ∧ gtZero (Position.size p) = true)) →
  claimWinnings w env privateKey myAddress s
  = (Returned {| claimed := 0; failed := 0; errors := []; txHashes := [] |},
     {| calls := calls s ++ [GetPositions myAddress 200];
        result := {| claimed := 0; failed := 0; errors := []; txHashes := [] |} |}).
Proof.
  intros Hfetch Hnone.
  apply (claimWinnings_nothing _ _ _ _ _ _ Hfetch).
  destruct (redeemablePositions positions) as [|p ps] eqn:Hps; [done |].
  assert (p ∈ redeemablePositions positions) as Hp by (rewrite Hps; left).
  apply elem_of_redeemablePositions in Hp as (Hin & Hr & Hs).
  by destruct (Hnone p Hin).
Qed.

Lemma nothing_redeemable_witness :
  claimWinnings
    (Scenario.scripted
       (Returned [Scenario.position "def" 0 true; Scenario.position "ghi" 2 false])
       (Returned tt) [])
    Scenario.relayerEnv "key" "0xme" start
  = (Returned zeroResult,
     {| calls := [GetPositions "0xme" 200]; result := zeroResult |}).
Proof.
  apply (nothing_redeemable _ _ _ _ start
           [Scenario.position "def" 0 true; Scenario.position "ghi" 2 false]).
  - reflexivity.
  - intros p Hp [Hr Hs].
    apply elem_of_cons in Hp as [-> | Hp]; [discriminate Hs |].
    apply elem_of_cons in Hp as [-> | Hp]; [discriminate Hr |].
    by apply elem_of_nil in Hp.
Defined.

(** ** One attempt per condition *)

Lemma attempts_app (cs1 cs2 : list Call) :
  attempts (cs1 ++ cs2) = attempts cs1 ++ attempts cs2.
Proof. apply filter_app. Qed.

Lemma attempts_fmap (mkCall : string → Call) (conditionIds : list string) :
  (∀ id, isRedeemCall (mkCall id) = true) →
  attempts (mkCall <$> conditionIds) = mkCall <$> conditionIds.
Proof.
  intros Hmk. induction conditionIds as [|id ids IH]; [done |].
  rewrite fmap_cons. unfold attempts in *.
  rewrite filter_cons_True by (by rewrite Hmk). by rewrite IH.
Qed.

Lemma attempts_claimWinnings (w : World) (env : gmap string string)
    (privateKey myAddress : string) (s s' : Run) (positions : list Position.t)
    (r : ClaimResult) :
  getPositions w (calls s) myAddress 200 = Returned positions →
  claimWinnings w env privateKey myAddress s = (Returned r, s') →
  attempts (calls s')
  = attempts (calls s)
    ++ ((if useRelayer env then relayerCall else directCall)
          <$> conditionIdsOf (redeemablePositions positions)).
Proof.
  intros Hpositions.
  claimWinnings_cases w env privateKey myAddress s; try done;
    injection Hpositions as ->; intros [= _ <-].
  - simpl. rewrite attempts_app, Hnone. by destruct (useRelayer env).
  - loop_returned Hloop. rewrite Hcalls. simpl.
    rewrite !attempts_app, attempts_fmap by done. simpl.
    by rewrite !app_nil_r.
  - loop_returned Hloop. rewrite Hcalls. simpl.
    rewrite !attempts_app, attempts_fmap by done. simpl.
    by rewrite !app_nil_r.
Qed.

(** C4: the condition ids handed to the redeemer are pairwise distinct and
    are exactly the non-empty string ids of the positions that are
    redeemable with a positive size; on the example of the specification
    they are exactly ["abc"]; and in a run that returns, the redemption
    attempts are one per such id, in order. *)
Theorem one_attempt_per_condition (positions : list Position.t) :
  NoDup (conditionIdsOf (redeemablePositions positions))
  ∧ (∀ id, id ∈ conditionIdsOf (redeemablePositions positions)
           ↔ id ≠ ""
             ∧ ∃ p, p ∈ positions ∧ Position.redeemable p = true
                    ∧ gtZero (Position.size p) = true
                    ∧ Position.conditionId p = Some id)
  ∧ conditionIdsOf (redeemablePositions Scenario.examplePositions) = ["abc"]
  ∧ ∀ (w : World) (env : gmap string string) (privateKey myAddress : string)
      (s s' : Run) (r : ClaimResult),
      getPositions w (calls s) myAddress 200 = Returned positions →
      claimWinnings w env privateKey myAddress s = (Returned r, s') →
      attempts (calls s')
      = attempts (calls s)
        ++ ((if useRelayer env then relayerCall else directCall)
              <$> conditionIdsOf (redeemablePositions positions)).
Proof.
  split; [apply NoDup_conditionIdsOf |].
  split; [apply elem_of_conditionIdsOf |].
  split; [reflexivity |].
  intros. by eapply attempts_claimWinnings.
Qed.

Lemma one_attempt_per_condition_witness :
  attempts
    (calls (claimWinnings
              (Scenario.scripted (Returned Scenario.examplePositions) (Returned tt)
                 [Returned (Some "0xhash1")])
              ∅ "key" "0xme" start).2)
  = [directCall "abc"].
Proof.
  refine (proj2 (proj2 (proj2 (one_attempt_per_condition Scenario.examplePositions)))
            (Scenario.scripted (Returned Scenario.examplePositions) (Returned tt)
               [Returned (Some "0xhash1")])
            ∅ "key" "0xme" start _
            {| claimed := 1; failed := 0; errors := []; txHashes := ["0xhash1"] |}
            eq_refl _).
  vm_compute. reflexivity.
Defined.

(** ** Isolation of failures *)


Lemma secondFailsScript_renders (positions : Completion (list Position.t))
    (setup : Completion unit) :
  rendersFailures (Scenario.scripted positions setup Scenario.secondFailsScript).
Proof.
  apply scripted_renders. repeat constructor; intros e [= <-].
  by exists "execution reverted"%string.
Qed.




(** ** Error records *)

Lemma errorRecord_take (conditionId msg : string) :
  errorRecord conditionId msg
  = JsString.take 10 conditionId +:+ errorSeparator +:+ JsString.take 80 msg.
Proof.
  unfold errorRecord.
  change 10%Z with (Z.of_nat 10). change 80%Z with (Z.of_nat 80).
  by rewrite !JsStringFacts.slice_first.
Qed.

Lemma errors_settle (conditionId : string) (c : Completion (option string))
    (r : ClaimResult) :
  errors (settle conditionId c r)
  = errors r ++ match c with
                | Threw e =>
                    match messageOf e with
                    | Returned msg => [errorRecord conditionId msg]
                    | Threw _ => []
                    end
                | Returned _ => []
                end.
Proof.
  destruct c as [h|e]; simpl.
  - destruct (truthy h); simpl; by rewrite app_nil_r.
  - destruct (messageOf e); simpl; by rewrite ?app_nil_r.
Qed.

(** C8, as the specification states it, fails: between the truncated id
    and the truncated message the code writes a separator, so the record is
    not the one followed by the other. *)
Lemma error_record_has_separator :
  messageOf (ErrorObject "boom") = Returned "boom"%string
  ∧ errorRecord "abc" "boom" = "abc…: boom"
  ∧ SpecRecord.errorRecord "abc" "boom" = "abcboom"
  ∧ errorRecord "abc" "boom" ≠ SpecRecord.errorRecord "abc" "boom".
Proof. repeat split; [vm_compute; reflexivity .. | discriminate]. Qed.

(** C8, as amended: an error record is the first 10 characters of the
    condition id, the fixed separator (an ellipsis, a colon and a space),
    and the first 80 characters of the error message, so that a longer id
    contributes exactly 10 characters and a longer message exactly 80; an
    iteration appends such a record when the redemption throws something
    with a message, and nothing otherwise, identically on the relayed and
    on the direct path. *)
Theorem error_record_truncated (w : World) (conditionId msg : string) (s : Run) :
  errorRecord conditionId msg
  = JsString.take 10 conditionId +:+ errorSeparator +:+ JsString.take 80 msg
  ∧ JsString.take 10 conditionId +:+ JsString.drop 10 conditionId = conditionId
  ∧ String.length (JsString.take 10 conditionId) = 10 `min` String.length conditionId
  ∧ JsString.take 80 msg +:+ JsString.drop 80 msg = msg
  ∧ String.length (JsString.take 80 msg) = 80 `min` String.length msg
  ∧ errors (result (relayerIteration w conditionId s).2)
    = errors (result s)
      ++ match relayerRedeem w (calls s) (redeemArgs conditionId) with
         | Threw e =>
             match messageOf e with
             | Returned msg' => [errorRecord conditionId msg']
             | Threw _ => []
             end
         | Returned _ => []
         end
  ∧ errors (result (directIteration w conditionId s).2)
    = errors (result s)
      ++ match directRedeem w (calls s) (redeemArgs conditionId) with
         | Threw e =>
             match messageOf e with
             | Returned msg' => [errorRecord conditionId msg']
             | Threw _ => []
             end
         | Returned _ => []
         end.
Proof.
  split; [apply errorRecord_take |].
  split; [apply JsStringFacts.take_drop |].
  split; [apply JsStringFacts.length_take |].
  split; [apply JsStringFacts.take_drop |].
  split; [apply JsStringFacts.length_take |].
  rewrite relayerIteration_settle, directIteration_settle. simpl.
  split; apply errors_settle.
Qed.

(** ** Counters and lists *)

(** C9: each iteration of either redeemer that returns keeps [claimed]
    equal to the length of [txHashes] and [failed] equal to the length of
    [errors], and every result returned by [claimWinnings] satisfies both
    equations. *)
Theorem counters_match_lists (w : World) (env : gmap string string)
    (privateKey myAddress : string) (s : Run) :
  (∀ conditionId,
      consistent (result s) →
      ((relayerIteration w conditionId s).1 = Returned tt →
       consistent (result (relayerIteration w conditionId s).2))
      ∧ ((directIteration w conditionId s).1 = Returned tt →
         consistent (result (directIteration w conditionId s).2)))
  ∧ ∀ r s',
      claimWinnings w env privateKey myAddress s = (Returned r, s') →
      claimed r = length (txHashes r) ∧ failed r = length (errors r).
Proof.
  split.
  - intros id Hs. rewrite relayerIteration_settle, directIteration_settle.
    simpl. split; intros Hreturns; apply consistent_settle; try done.
    + by destruct (escapes (relayerRedeem _ _ _)).
    + by destruct (escapes (directRedeem _ _ _)).
  - intros r s0.
    claimWinnings_cases w env privateKey myAddress s; try done;
      intros [= <- _]; try done.
    + pose proof (consistent_settleAll relayerCall (relayerRedeem w)
                    (conditionIdsOf (redeemablePositions positions))
                    (afterSetup (afterFetch s myAddress)
                       (relayerSetupCall env privateKey))) as Hkept.
      rewrite Hloop in Hkept. by apply Hkept.
    + pose proof (consistent_settleAll directCall (directRedeem w)
                    (conditionIdsOf (redeemablePositions positions))
                    (afterSetup (afterFetch s myAddress) (DirectSetup privateKey)))
        as Hkept.
      rewrite Hloop in Hkept. by apply Hkept.
Qed.

Lemma counters_match_lists_witness :
  consistent
    {| claimed := 2; failed := 1;
       errors := [errorRecord "0xb2" "execution reverted"];
       txHashes := ["0xhash1"; "0xhash3"] |}.
Proof.
  refine (proj2 (counters_match_lists
                   (Scenario.scripted (Returned Scenario.threeConditions)
                      (Returned tt) Scenario.secondFailsScript)
                   ∅ "key" "0xme" start) _
            (claimWinnings
               (Scenario.scripted (Returned Scenario.threeConditions)
                  (Returned tt) Scenario.secondFailsScript)
               ∅ "key" "0xme" start).2 _).
  vm_compute. reflexivity.
Defined.

(** ** Confirmations without a hash *)

Lemma settle_no_hash (conditionId : string) (h : option string) (r : ClaimResult) :
  truthy h = false → settle conditionId (Returned h) r = r.
Proof. intros Hh. unfold settle. by rewrite Hh. Qed.

(** C10: when the redemption of a condition completes without throwing but
    yields no transaction hash, the iteration leaves the result as it was,
    on both paths: neither counter moves and no error record is appended;
    hence there is a run whose [claimed + failed] is strictly below the
    number of conditions it attempted. *)
Theorem no_hash_counts_nowhere (w : World) (conditionId : string) (s : Run)
    (h : option string) :
  truthy h = false →
  (relayerRedeem w (calls s) (redeemArgs conditionId) = Returned h →
   result (relayerIteration w conditionId s).2 = result s)
  ∧ (directRedeem w (calls s) (redeemArgs conditionId) = Returned h →
     result (directIteration w conditionId s).2 = result s)
  ∧ ∃ (w0 : World) (env : gmap string string) (r : ClaimResult) (s' : Run),
      claimWinnings w0 env "key" "0xme" start = (Returned r, s')
      ∧ claimed r + failed r < length (attempts (calls s')).
Proof.
  intros Hh. split; [| split].
  - intros Hreply. rewrite relayerIteration_settle. simpl.
    rewrite Hreply. by apply settle_no_hash.
  - intros Hreply. rewrite directIteration_settle. simpl.
    rewrite Hreply. by apply settle_no_hash.
  - exists (Scenario.scripted (Returned Scenario.threeConditions) (Returned tt)
              [Returned (Some "0xhash1"); Returned None; Returned (Some "")]), ∅.
    eexists _, _. split; [vm_compute; reflexivity |]. vm_compute. lia.
Qed.

Lemma no_hash_counts_nowhere_witness :
  result (directIteration
            (Scenario.scripted (Returned Scenario.threeConditions) (Returned tt) [])
            "0xa1" start).2
  = zeroResult.
Proof.
  refine (proj1 (proj2 (no_hash_counts_nowhere
                          (Scenario.scripted (Returned Scenario.threeConditions)
                             (Returned tt) [])
                          "0xa1" start None eq_refl)) eq_refl).
Defined.


(** * Further properties of the code *)

(** ** More on the normalizer *)

Section NormalizerShapes.

Import JsString JsStringFacts.

Lemma hexOf_prefixed (h : string) : hexOf ("0x" +:+ h) = h.
Proof.
  unfold hexOf. rewrite startsWith_0x.
  change 2%Z with (Z.of_nat 2). by rewrite slice_from.
Qed.

Lemma hexOf_bare (h : string) : startsWith "0x" h = false → hexOf h = h.
Proof. intros Hh. unfold hexOf. by rewrite Hh. Qed.

Lemma drop_app_length (p h : string) : drop (String.length p) (p +:+ h) = h.
Proof.
  rewrite drop_app_ge by done. rewrite Nat.sub_diag. by destruct h.
Qed.

(** X1: the normalizer leaves exactly the canonical identifiers unchanged:
    [0x] followed by 64 characters. *)
Theorem normalize_fixed_point_iff (x : string) :
  normalizeConditionId x = x
  ↔ ∃ body, x = "0x" +:+ body ∧ String.length body = 64.
Proof.
  split.
  - intros Hx. exists (slice (padStart 64 "0" (hexOf x)) (-64) None).
    split; [| apply length_padded_last64].
    transitivity (normalizeConditionId x); [by symmetry | done].
  - intros (body & -> & Hlen). by apply normalize_fixes_canonical.
Qed.

Lemma normalize_fixed_point_iff_witness : normalizeConditionId zeroHash = zeroHash.
Proof.
  apply (proj2 (normalize_fixed_point_iff zeroHash)).
  exists "0000000000000000000000000000000000000000000000000000000000000000"%string.
  split; reflexivity.
Defined.

(** X2: an identifier of at most 64 characters (after its optional prefix)
    is kept whole and padded with zeros on the left. *)
Theorem normalize_pads_short (id : string) :
  String.length (hexOf id) ≤ 64 →
  normalizeConditionId id
  = "0x" +:+ repeat "0" (64 - String.length (hexOf id)) +:+ hexOf id.
Proof.
  intros Hlen. unfold normalizeConditionId. cbv zeta. rewrite padded_last64.
  replace (String.length (hexOf id) - 64) with 0 by lia.
  by destruct (hexOf id).
Qed.

Lemma normalize_pads_short_witness :
  normalizeConditionId "0xabc"
  = "0x" +:+ repeat "0" 61 +:+ "abc".
Proof. apply (normalize_pads_short "0xabc"). vm_compute. lia. Defined.

(** X3: an identifier longer than 64 characters is not rejected: whatever
    precedes its last 64 characters is dropped. *)
Theorem normalize_keeps_last_64 (id p h : string) :
  hexOf id = p +:+ h →
  String.length h = 64 →
  normalizeConditionId id = "0x" +:+ h.
Proof.
  intros Hid Hlen. unfold normalizeConditionId. cbv zeta.
  rewrite padded_last64, Hid, length_app, Hlen.
  replace (64 - (String.length p + 64)) with 0 by lia.
  replace (String.length p + 64 - 64) with (String.length p) by lia.
  by rewrite drop_app_length.
Qed.

Lemma normalize_keeps_last_64_witness :
  normalizeConditionId
    "0xffff1111222233334444555566667777888899990000aaaabbbbccccddddeeeeffff"
  = "0x1111222233334444555566667777888899990000aaaabbbbccccddddeeeeffff".
Proof.
  apply (normalize_keeps_last_64 _ "ffff"
           "1111222233334444555566667777888899990000aaaabbbbccccddddeeeeffff");
    reflexivity.
Defined.

(** X4: the prefix is optional: an identifier and the same identifier
    behind [0x] have one normal form. *)
Theorem normalize_ignores_prefix (h : string) :
  startsWith "0x" h = false →
  normalizeConditionId ("0x" +:+ h) = normalizeConditionId h.
Proof.
  intros Hh. unfold normalizeConditionId.
  by rewrite hexOf_prefixed, hexOf_bare.
Qed.

Lemma normalize_ignores_prefix_witness :
  normalizeConditionId "0xabc" = normalizeConditionId "abc".
Proof. apply (normalize_ignores_prefix "abc"). reflexivity. Defined.

End NormalizerShapes.

(** ** More on the reconciler *)

Lemma redeemArgs_prefixed (h : string) :
  JsString.startsWith "0x" h = false → redeemArgs ("0x" +:+ h) = redeemArgs h.
Proof.
  intros Hh. unfold redeemArgs, normalizeConditionId.
  by rewrite hexOf_prefixed, hexOf_bare.
Qed.

Lemma conditionIdsOf_prefixed_pair (h : string) (n1 n2 : JsNumber) :
  h ≠ "" →
  JsString.startsWith "0x" h = false →
  gtZero n1 = true →
  gtZero n2 = true →
  conditionIdsOf
    (redeemablePositions
       [Position.mk (Some h) n1 true; Position.mk (Some ("0x" +:+ h)) n2 true])
  = [h; "0x" +:+ h].
Proof.
  intros Hne Hh Hn1 Hn2.
  assert (Some ("0x" +:+ h) ≠ Some h) as Hdiff.
  { intros [= Heq]. rewrite <- Heq in Hh. by rewrite startsWith_0x in Hh. }
  unfold redeemablePositions.
  rewrite !filter_cons_True, filter_nil by (simpl; by rewrite ?Hn1, ?Hn2).
  unfold conditionIdsOf. simpl.
  rewrite filter_cons_True, filter_nil by done.
  by destruct h.
Qed.

(** X5: deduplication compares the identifiers as they were fetched, not
    their normal forms: when one condition is held under an identifier and
    under the same identifier behind [0x], a run that returns has submitted
    the same redemption twice. *)
Theorem same_condition_submitted_twice (w : World) (env : gmap string string)
    (privateKey myAddress : string) (s s' : Run) (r : ClaimResult)
    (h : string) (n1 n2 : JsNumber) :
  h ≠ "" →
  JsString.startsWith "0x" h = false →
  gtZero n1 = true →
  gtZero n2 = true →
  getPositions w (calls s) myAddress 200
  = Returned [Position.mk (Some h) n1 true;
              Position.mk (Some ("0x" +:+ h)) n2 true] →
  claimWinnings w env privateKey myAddress s = (Returned r, s') →
  attempts (calls s')
  = attempts (calls s)
    ++ [(if useRelayer env then relayerCall else directCall) h;
        (if useRelayer env then relayerCall else directCall) h].
Proof.
  intros Hne Hh Hn1 Hn2 Hfetch Hrun.
  rewrite (attempts_claimWinnings _ _ _ _ _ _ _ _ Hfetch Hrun).
  rewrite conditionIdsOf_prefixed_pair by done.
  destruct (useRelayer env); simpl; unfold relayerCall, directCall;
    by rewrite redeemArgs_prefixed.
Qed.

Lemma same_condition_submitted_twice_witness :
  attempts
    (calls (claimWinnings
              (Scenario2.steady
                 [Position.mk (Some "abc") (Finite (inject_Z 5)) true;
                  Position.mk (Some "0xabc") (Finite (inject_Z 3)) true])
              ∅ "key" "0xme" start).2)
  = [directCall "abc"; directCall "abc"].
Proof.
  refine (same_condition_submitted_twice
            (Scenario2.steady
               [Position.mk (Some "abc") (Finite (inject_Z 5)) true;
                Position.mk (Some "0xabc") (Finite (inject_Z 3)) true])
            ∅ "key" "0xme" start _
            {| claimed := 2; failed := 0; errors := [];
               txHashes := ["0xhash"; "0xhash"] |}
            "abc" (Finite (inject_Z 5)) (Finite (inject_Z 3))
            _ eq_refl eq_refl eq_refl eq_refl _).
  - discriminate.
  - vm_compute. reflexivity.
Defined.

(** X6: called without the three credentials, the relayed redeemer does
    nothing at all: it returns without a call and leaves the result as it
    was, so the conditions are counted neither as claimed nor as failed. *)
Theorem claimViaRelayer_without_credentials (w : World) (env : gmap string string)
    (privateKey : string) (conditionIds : list string) (s : Run) :
  useRelayer env = false →
  claimViaRelayer w env privateKey conditionIds s = (Returned tt, s).
Proof.
  unfold useRelayer, claimViaRelayer. intros Hsel.
  destruct (truthy (builderKey env)), (truthy (builderSecret env)),
    (truthy (builderPassphrase env)); done.
Qed.

Lemma claimViaRelayer_without_credentials_witness :
  claimViaRelayer (Scenario2.steady Scenario.threeConditions) Scenario.shadowedEnv
    "key" ["0xa1"; "0xb2"] start
  = (Returned tt, start).
Proof. apply claimViaRelayer_without_credentials. reflexivity. Defined.

Section Counted.

Variable mkCall : string → Call.
Variable reply : list Call → RedeemArgs → Completion (option string).

Lemma settled_settleAll (conditionIds : list string) (s : Run) :
  (settleAll mkCall reply conditionIds s).1 = Returned tt →
  claimed (result (settleAll mkCall reply conditionIds s).2)
  + failed (result (settleAll mkCall reply conditionIds s).2)
  ≤ claimed (result s) + failed (result s) + length conditionIds.
Proof.
  revert s. induction conditionIds as [|id ids IH]; intros s; simpl; [lia |].
  destruct (escapes _) eqn:Hescapes; [done |]. intros Hloop.
  etransitivity; [by apply IH |]. simpl. unfold settle.
  destruct (reply (calls s) (redeemArgs id)) as [h|e];
    [destruct (truthy h) | destruct (messageOf e)]; simpl; lia.
Qed.

End Counted.

(** Whatever holds of the zero result and is kept by every iteration that
    returns holds of every result that [claimWinnings] returns. *)
Lemma claimWinnings_returns_preserved (P : ClaimResult → Prop) (w : World)
    (env : gmap string string) (privateKey myAddress : string) (s s' : Run)
    (r : ClaimResult) :
  P zeroResult →
  (∀ id c r0, escapes c = None → P r0 → P (settle id c r0)) →
  claimWinnings w env privateKey myAddress s = (Returned r, s') →
  P r.
Proof.
  intros Hzero Hstep.
  claimWinnings_cases w env privateKey myAddress s; try done;
    intros [= <- _]; try done.
  - pose proof (settleAll_preserves relayerCall (relayerRedeem w) P
                  (conditionIdsOf (redeemablePositions positions))
                  (afterSetup (afterFetch s myAddress)
                     (relayerSetupCall env privateKey)) Hstep) as Hkept.
    rewrite Hloop in Hkept. by apply Hkept.
  - pose proof (settleAll_preserves directCall (directRedeem w) P
                  (conditionIdsOf (redeemablePositions positions))
                  (afterSetup (afterFetch s myAddress) (DirectSetup privateKey))
                  Hstep) as Hkept.
    rewrite Hloop in Hkept. by apply Hkept.
Qed.

Lemma length_arrayFromSet {A : Type} `{EqDecision A} (xs : list A) :
  length (arrayFromSet xs) ≤ length xs.
Proof.
  induction xs as [|x xs IH]; simpl; [done |].
  pose proof (length_filter (λ y, y ≠ x) (arrayFromSet xs)). lia.
Qed.

Lemma length_omap_le {A B : Type} (f : A → option B) (xs : list A) :
  length (omap f xs) ≤ length xs.
Proof.
  induction xs as [|x xs IH]; [done |].
  change (omap f (x :: xs))
    with (match f x with Some y => y :: omap f xs | None => omap f xs end).
  destruct (f x); simpl; lia.
Qed.

Lemma length_conditionIdsOf (positions : list Position.t) :
  length (conditionIdsOf (redeemablePositions positions)) ≤ length positions.
Proof.
  unfold conditionIdsOf, redeemablePositions.
  etransitivity; [apply length_omap_le |].
  etransitivity; [apply length_arrayFromSet |].
  rewrite length_fmap. apply length_filter.
Qed.

(** X7: no condition is counted twice: in a result that [claimWinnings]
    returns, [claimed + failed] is at most the number of condition ids
    handed to the redeemer, which is at most the number of positions
    fetched. *)
Theorem settled_at_most_once_each (w : World) (env : gmap string string)
    (privateKey myAddress : string) (s s' : Run) (r : ClaimResult)
    (positions : list Position.t) :
  getPositions w (calls s) myAddress 200 = Returned positions →
  claimWinnings w env privateKey myAddress s = (Returned r, s') →
  claimed r + failed r ≤ length (conditionIdsOf (redeemablePositions positions))
  ∧ length (conditionIdsOf (redeemablePositions positions)) ≤ length positions.
Proof.
  intros Hpositions Hrun. split; [| apply length_conditionIdsOf]. revert Hrun.
  claimWinnings_cases w env privateKey myAddress s; try done;
    injection Hpositions as ->; intros [= <- _]; simpl; [lia | |].
  - pose proof (settled_settleAll relayerCall (relayerRedeem w)
                  (conditionIdsOf (redeemablePositions positions))
                  (afterSetup (afterFetch s myAddress)
                     (relayerSetupCall env privateKey))) as Hbound.
    rewrite Hloop in Hbound. specialize (Hbound eq_refl). simpl in Hbound. lia.
  - pose proof (settled_settleAll directCall (directRedeem w)
                  (conditionIdsOf (redeemablePositions positions))
                  (afterSetup (afterFetch s myAddress) (DirectSetup privateKey)))
      as Hbound.
    rewrite Hloop in Hbound. specialize (Hbound eq_refl). simpl in Hbound. lia.
Qed.

Lemma settled_at_most_once_each_witness :
  2 + 1 ≤ length (conditionIdsOf (redeemablePositions Scenario.threeConditions)).
Proof.
  refine (proj1 (settled_at_most_once_each
                   (Scenario.scripted (Returned Scenario.threeConditions)
                      (Returned tt) Scenario.secondFailsScript)
                   ∅ "key" "0xme" start _
                   {| claimed := 2; failed := 1;
                      errors := [errorRecord "0xb2" "execution reverted"];
                      txHashes := ["0xhash1"; "0xhash3"] |}
                   Scenario.threeConditions eq_refl _)).
  vm_compute. reflexivity.
Defined.

(** X8: a hash is recorded only when there is one: no result that
    [claimWinnings] returns lists an empty transaction hash. *)
Theorem recorded_hashes_non_empty (w : World) (env : gmap string string)
    (privateKey myAddress : string) (s s' : Run) (r : ClaimResult) :
  claimWinnings w env privateKey myAddress s = (Returned r, s') →
  Forall (λ h, h ≠ "") (txHashes r).
Proof.
  apply (claimWinnings_returns_preserved (λ r0, Forall (λ h, h ≠ "") (txHashes r0)));
    [constructor |].
  intros id [[h|]|e] r0 _ Hr0; simpl; try done.
  - destruct (bool_decide (h ≠ "")) eqn:Hh; simpl; [| done].
    apply Forall_app. split; [done |].
    repeat constructor. by apply bool_decide_eq_true in Hh.
  - by destruct (messageOf e).
Qed.

Lemma recorded_hashes_non_empty_witness :
  Forall (λ h, h ≠ ""%string) ["0xhash1"%string].
Proof.
  refine (recorded_hashes_non_empty
            (Scenario.scripted (Returned Scenario.threeConditions) (Returned tt)
               [Returned (Some "0xhash1"); Returned None; Returned (Some "")])
            ∅ "key" "0xme" start _
            {| claimed := 1; failed := 0; errors := []; txHashes := ["0xhash1"] |}
            _).
  vm_compute. reflexivity.
Defined.




Lemma settleAll_results_agree (mk1 mk2 : string → Call)
    (reply1 reply2 : list Call → RedeemArgs → Completion (option string))
    (conditionIds : list string) (s1 s2 : Run) :
  (∀ h1 h2 args, reply1 h1 args = reply2 h2 args) →
  result s1 = result s2 →
  (finish (settleAll mk1 reply1 conditionIds s1)).1
  = (finish (settleAll mk2 reply2 conditionIds s2)).1.
Proof.
  intros Hsame. revert s1 s2.
  induction conditionIds as [|id ids IH]; intros s1 s2 Hres; simpl.
  - unfold finish. simpl. by rewrite Hres.
  - rewrite (Hsame (calls s1) (calls s2)).
    destruct (escapes _); [done |]. apply IH. simpl. by rewrite Hres.
Qed.

(** X10: the two redeemers are interchangeable as far as the result goes:
    when both client setups succeed and the relay and the chain complete
    each redemption alike, a run under the relayed strategy and a run under
    the direct strategy complete with the same result. *)
Theorem strategies_agree (w : World) (relayed direct : gmap string string)
    (privateKey myAddress : string) (s : Run) :
  useRelayer relayed = true →
  useRelayer direct = false →
  relayerSetup w (calls (afterFetch s myAddress)) privateKey
    (default "" (builderKey relayed)) (default "" (builderSecret relayed))
    (default "" (builderPassphrase relayed)) = Returned tt →
  directSetup w (calls (afterFetch s myAddress)) privateKey = Returned tt →
  (∀ h1 h2 args, relayerRedeem w h1 args = directRedeem w h2 args) →
  (claimWinnings w relayed privateKey myAddress s).1
  = (claimWinnings w direct privateKey myAddress s).1.
Proof.
  intros Hrelayed Hdirect Hsetup1 Hsetup2 Hsame.
  destruct (getPositions w (calls s) myAddress 200) as [positions|e] eqn:Hfetch.
  2: { by rewrite !(claimWinnings_fetch_throws _ _ _ _ _ _ Hfetch). }
  destruct (decide (redeemablePositions positions = [])) as [Hnone|Hsome].
  { by rewrite !(claimWinnings_nothing _ _ _ _ _ _ Hfetch Hnone). }
  rewrite (claimWinnings_relayed _ _ _ _ _ _ Hfetch Hsome Hrelayed), Hsetup1.
  rewrite (claimWinnings_direct _ _ _ _ _ _ Hfetch Hsome Hdirect), Hsetup2.
  by apply settleAll_results_agree.
Qed.

Lemma strategies_agree_witness :
  (claimWinnings (Scenario2.steady Scenario.threeConditions) Scenario.relayerEnv
     "key" "0xme" start).1
  = (claimWinnings (Scenario2.steady Scenario.threeConditions) ∅
       "key" "0xme" start).1.
Proof. apply strategies_agree; reflexivity. Defined.

Lemma claimWinnings_starts_with_fetch (w : World) (env : gmap string string)
    (privateKey myAddress : string) (s : Run) :
  ∃ rest,
    calls (claimWinnings w env privateKey myAddress s).2
    = calls s ++ GetPositions myAddress 200 :: rest.
Proof.
  claimWinnings_cases w env privateKey myAddress s;
    try loop_facts Hloop; simpl; try rewrite Hcalls; simpl;
    rewrite <- ?app_assoc; simpl; eauto.
Qed.

(** X11: every run asks the position source exactly once, before anything
    else, for at most 200 positions of the given address; whatever follows
    is no position fetch. *)
Theorem fetches_once_and_first (w : World) (env : gmap string string)
    (privateKey myAddress : string) (s : Run) :
  ∃ rest,
    calls (claimWinnings w env privateKey myAddress s).2
    = calls s ++ GetPositions myAddress 200 :: rest
    ∧ Forall (λ c, isFetchCall c = false) rest.
Proof.
  claimWinnings_cases w env privateKey myAddress s;
    try loop_facts Hloop; simpl; try rewrite Hcalls; simpl;
    rewrite <- ?app_assoc; simpl;
    eexists; (split; [reflexivity |]); repeat constructor;
    by apply Forall_fmap, Forall_true.
Qed.

(** X12: the early return looks at the positions, not at their ids: when
    some position is redeemable but none carries a usable identifier, the
    selected redeemer is still set up, nothing is submitted, and the run
    completes with the zero result if the setup returns and with the
    setup's exception if it throws. *)
Theorem unusable_ids_still_set_up (w : World) (env : gmap string string)
    (privateKey myAddress : string) (s : Run) (positions : list Position.t) :
  getPositions w (calls s) myAddress 200 = Returned positions →
  redeemablePositions positions ≠ [] →
  conditionIdsOf (redeemablePositions positions) = [] →
  claimWinnings w env privateKey myAddress s
  = (match (if useRelayer env
            then relayerSetup w (calls (afterFetch s myAddress)) privateKey
                   (default "" (builderKey env)) (default "" (builderSecret env))
                   (default "" (builderPassphrase env))
            else directSetup w (calls (afterFetch s myAddress)) privateKey) with
     | Returned _ => Returned zeroResult
     | Threw e => Threw e
     end,
     {| calls := calls s
                 ++ [GetPositions myAddress 200;
                     if useRelayer env then relayerSetupCall env privateKey
                     else DirectSetup privateKey];
        result := zeroResult |}).
Proof.
  intros Hfetch Hsome Hids. destruct (useRelayer env) eqn:Hsel.
  - rewrite (claimWinnings_relayed _ _ _ _ _ _ Hfetch Hsome Hsel), Hids.
    destruct (relayerSetup _ _ _ _ _ _); unfold afterSetup, afterFetch; simpl;
      by rewrite <- app_assoc.
  - rewrite (claimWinnings_direct _ _ _ _ _ _ Hfetch Hsome Hsel), Hids.
    destruct (directSetup _ _ _); unfold afterSetup, afterFetch; simpl;
      by rewrite <- app_assoc.
Qed.

Lemma unusable_ids_still_set_up_witness :
  claimWinnings (Scenario2.steady Scenario2.anonymousPositions) ∅ "key" "0xme" start
  = (Returned zeroResult,
     {| calls := [GetPositions "0xme" 200; DirectSetup "key"];
        result := zeroResult |}).
Proof.
  etransitivity.
  - apply (unusable_ids_still_set_up
             (Scenario2.steady Scenario2.anonymousPositions)
             ∅ "key" "0xme" start Scenario2.anonymousPositions);
      [reflexivity | discriminate | reflexivity].
  - vm_compute. reflexivity.
Defined.

Lemma arrayFromSet_sublist {A : Type} `{EqDecision A} (xs : list A) :
  arrayFromSet xs `sublist_of` xs.
Proof.
  induction xs as [|x xs IH]; simpl; [done |].
  apply sublist_skip. etransitivity; [apply sublist_filter | done].
Qed.

Lemma nonEmptyStrings_sublist (ids : list (option string)) :
  (Some <$> omap nonEmptyString ids) `sublist_of` ids.
Proof.
  induction ids as [|id ids IH]; [done |].
  change (omap nonEmptyString (id :: ids))
    with (match nonEmptyString id with
          | Some y => y :: omap nonEmptyString ids
          | None => omap nonEmptyString ids
          end).
  destruct (nonEmptyString id) as [y|] eqn:Hid.
  - apply nonEmptyString_Some in Hid as [-> _]. rewrite fmap_cons.
    by apply sublist_skip.
  - by apply sublist_cons.
Qed.

(** X13: the condition ids are handed to the redeemer in the order in
    which the position source returned their positions: they form a
    subsequence of the identifiers of the fetched positions. *)
Theorem ids_follow_positions (positions : list Position.t) :
  (Some <$> conditionIdsOf (redeemablePositions positions))
    `sublist_of` (Position.conditionId <$> positions).
Proof.
  unfold conditionIdsOf, redeemablePositions.
  etransitivity; [apply nonEmptyStrings_sublist |].
  etransitivity; [apply arrayFromSet_sublist |].
  apply fmap_sublist, sublist_filter.
Qed.

(** ** The claim-now route *)

Section ClaimNowFacts.

Variable host : ClaimNow.Host.
Variable w : World.
Variable env : gmap string string.

Lemma POST_with_key (sv : ClaimNow.Server) :
  truthy (ClaimNow.PRIVATE_KEY env) = true →
  ClaimNow.POST host w env sv
  = match claimWinnings w env (default "" (ClaimNow.PRIVATE_KEY env))
            (MY_ADDRESS env) (ClaimNow.run sv) with
    | (Returned r, s') =>
        (match ClaimNow.setState host (calls s') (ClaimNow.stampOf host r s') with
         | Returned _ =>
             Returned (json (ClaimNow.Claimed (claimed r) (failed r) (errors r)
                               (txHashes r)) None)
         | Threw e => ClaimNow.answerFailure e
         end,
         {| ClaimNow.run := s';
            ClaimNow.stamps := ClaimNow.stamps sv ++ [ClaimNow.stampOf host r s'] |})
    | (Threw e, s') =>
        (ClaimNow.answerFailure e,
         {| ClaimNow.run := s'; ClaimNow.stamps := ClaimNow.stamps sv |})
    end.
Proof.
  intros Hkey. unfold ClaimNow.POST. rewrite Hkey. simpl.
  unfold ClaimNow.attempt, ClaimNow.andThen, ClaimNow.liftRun,
    ClaimNow.readClock, ClaimNow.store, ClaimNow.compute, ClaimNow.pure,
    ClaimNow.answerFailure.
  destruct (claimWinnings _ _ _ _ _) as [[r|e] s']; simpl.
  - destruct (ClaimNow.setState _ _ _) as [[]|e]; [done |].
    by destruct (errOf e).
  - by destruct (errOf e).
Qed.

(** X14: without a signing key, undefined or empty, [POST] answers 500
    with its fixed message and touches nothing: no network call is made and
    nothing is handed to the store. *)
Theorem POST_without_key (sv : ClaimNow.Server) :
  env !! "PRIVATE_KEY" = None ∨ env !! "PRIVATE_KEY" = Some "" →
  ClaimNow.POST host w env sv
  = (Returned {| status := 500;
                 body := ClaimNow.ErrorOnly "PRIVATE_KEY not configured" |},
     sv).
Proof.
  intros Hkey. unfold ClaimNow.POST, ClaimNow.PRIVATE_KEY.
  by destruct Hkey as [-> | ->].
Qed.

(** X15: an exception escapes from [POST] only out of its own [catch]:
    [POST] throws exactly when a signing key is set and the value it caught
    from [claimWinnings] or [setState] cannot be turned into a body, that
    is, [String] cannot render it or its message cannot be written as
    JSON; otherwise it answers, with status 200 or 500. *)
Theorem POST_throws_only_from_its_catch (sv : ClaimNow.Server) :
  (∀ raised,
      (∃ sv', ClaimNow.POST host w env sv = (Threw raised, sv'))
      ↔ truthy (ClaimNow.PRIVATE_KEY env) = true
        ∧ ∃ e, ClaimNow.caught host w env sv e ∧ errOf e = Threw raised)
  ∧ ((∃ raised sv', ClaimNow.POST host w env sv = (Threw raised, sv'))
     ∨ ∃ resp sv',
         ClaimNow.POST host w env sv = (Returned resp, sv')
         ∧ (status resp = 200%Z ∨ status resp = 500%Z)).
Proof.
  unfold ClaimNow.caught. cbv zeta.
  destruct (truthy (ClaimNow.PRIVATE_KEY env)) eqn:Hkey.
  2: { unfold ClaimNow.POST. rewrite Hkey. simpl. split.
       - intros raised. split; [by intros (? & ?) | by intros [? _]].
       - right. eauto. }
  rewrite POST_with_key by done. unfold ClaimNow.answerFailure.
  destruct (claimWinnings _ _ _ _ _) as [[r|e] s'] eqn:Hrun; simpl.
  - destruct (ClaimNow.setState _ _ _) as [[]|e] eqn:Hstore.
    + split; [| right; eauto].
      intros raised. split; [by intros (? & ?) |].
      intros [_ (e & [? | (r0 & [= <-] & Hstore') ] & _)]; [done |].
      by rewrite Hstore in Hstore'.
    + destruct (errOf e) as [err|raised0] eqn:Herr.
      * split; [| right; eauto].
        intros raised. split; [by intros (? & ?) |].
        intros [_ (e0 & [? | (r0 & [= <-] & Hstore') ] & He0)]; [done |].
        rewrite Hstore in Hstore'. injection Hstore' as <-.
        by rewrite Herr in He0.
      * split; [| left; eauto].
        intros raised. split.
        -- intros (sv' & [= <- _]). split; [done |]. exists e. split; [| done].
           right. by exists r.
        -- intros [_ (e0 & [? | (r0 & [= <-] & Hstore') ] & He0)]; [done |].
           rewrite Hstore in Hstore'. injection Hstore' as <-.
           rewrite Herr in He0. injection He0 as <-. eauto.
  - destruct (errOf e) as [err|raised0] eqn:Herr.
    + split; [| right; eauto].
      intros raised. split; [by intros (? & ?) |].
      intros [_ (e0 & [[= <-] | (r0 & ? & _)] & He0)]; [| done].
      by rewrite Herr in He0.
    + split; [| left; eauto].
      intros raised. split.
      * intros (sv' & [= <- _]). split; [done |]. exists e. split; [by left | done].
      * intros [_ (e0 & [[= <-] | (r0 & ? & _)] & He0)]; [| done].
        rewrite Herr in He0. injection He0 as <-. eauto.
Qed.

(** X16: an answer with status 200 reports a run that returned: the body
    carries the four fields of its result, whose counters equal the lengths
    of the two lists, and exactly one stamp was handed to the store, with
    the clock reading and the two counters of that result. *)
Theorem POST_ok_reports_the_run (sv sv' : ClaimNow.Server)
    (resp : Response ClaimNow.Body) :
  ClaimNow.POST host w env sv = (Returned resp, sv') →
  status resp = 200%Z →
  ∃ r,
    claimWinnings w env (default "" (ClaimNow.PRIVATE_KEY env)) (MY_ADDRESS env)
      (ClaimNow.run sv)
    = (Returned r, ClaimNow.run sv')
    ∧ body resp = ClaimNow.Claimed (claimed r) (failed r) (errors r) (txHashes r)
    ∧ claimed r = length (txHashes r)
    ∧ failed r = length (errors r)
    ∧ ClaimNow.stamps sv'
      = ClaimNow.stamps sv
        ++ [{| ClaimNow.lastClaimAt := ClaimNow.now host (calls (ClaimNow.run sv'));
               ClaimNow.lastClaimResult := (claimed r, failed r) |}].
Proof.
  destruct (truthy (ClaimNow.PRIVATE_KEY env)) eqn:Hkey.
  2: { unfold ClaimNow.POST. rewrite Hkey. simpl. by intros [= <- _]. }
  rewrite POST_with_key by done. unfold ClaimNow.answerFailure.
  destruct (claimWinnings _ _ _ _ _) as [[r|e] s'] eqn:Hrun.
  2: { destruct (errOf e); [by intros [= <- _] | done]. }
  destruct (ClaimNow.setState _ _ _) as [[]|e].
  2: { destruct (errOf e); [by intros [= <- _] | done]. }
  intros [= <- <-] _. exists r. simpl. split; [done |]. split; [done |].
  assert (consistent r) as [Hc Hf].
  { eapply (claimWinnings_returns_preserved consistent); [done | | exact Hrun].
    intros id c r0. apply consistent_settle. }
  done.
Qed.

(** X17: an answer with status 500 has one of three causes: the signing
    key is missing and nothing was touched; or the run threw, the body
    carries the message of what it threw and nothing was handed to the
    store; or the run returned and the store threw, and the body carries
    the store's message in place of the result. *)
Theorem POST_failure_causes (sv sv' : ClaimNow.Server)
    (resp : Response ClaimNow.Body) :
  ClaimNow.POST host w env sv = (Returned resp, sv') →
  status resp = 500%Z →
  (truthy (ClaimNow.PRIVATE_KEY env) = false ∧ sv' = sv
   ∧ body resp = ClaimNow.ErrorOnly "PRIVATE_KEY not configured")
  ∨ (∃ e err,
       claimWinnings w env (default "" (ClaimNow.PRIVATE_KEY env))
         (MY_ADDRESS env) (ClaimNow.run sv)
       = (Threw e, ClaimNow.run sv')
       ∧ errOf e = Returned err
       ∧ body resp = ClaimNow.NotClaimed err
       ∧ ClaimNow.stamps sv' = ClaimNow.stamps sv)
  ∨ (∃ r e err,
       claimWinnings w env (default "" (ClaimNow.PRIVATE_KEY env))
         (MY_ADDRESS env) (ClaimNow.run sv)
       = (Returned r, ClaimNow.run sv')
       ∧ ClaimNow.setState host (calls (ClaimNow.run sv'))
           {| ClaimNow.lastClaimAt := ClaimNow.now host (calls (ClaimNow.run sv'));
              ClaimNow.lastClaimResult := (claimed r, failed r) |}
         = Threw e
       ∧ errOf e = Returned err
       ∧ body resp = ClaimNow.NotClaimed err).
Proof.
  destruct (truthy (ClaimNow.PRIVATE_KEY env)) eqn:Hkey.
  2: { unfold ClaimNow.POST. rewrite Hkey. simpl. intros [= <- <-] _. by left. }
  rewrite POST_with_key by done. unfold ClaimNow.answerFailure.
  destruct (claimWinnings _ _ _ _ _) as [[r|e] s'] eqn:Hrun.
  2: { destruct (errOf e) as [err|] eqn:Herr; [| done].
       intros [= <- <-] _. right. left. by exists e, err. }
  destruct (ClaimNow.setState _ _ _) as [[]|e] eqn:Hstore.
  - by intros [= <- _].
  - destruct (errOf e) as [err|] eqn:Herr; [| done].
    intros [= <- <-] _. right. right. by exists r, e, err.
Qed.

(** X18: failures of individual conditions do not fail the request: with a
    signing key, a position fetch that returns, a client setup that does not
    throw and a store that accepts, [POST] answers 200 however the
    redemptions complete, as long as whatever a redemption throws is an
    [Error] with a string message or a value that [String] renders. *)
Theorem POST_ok_despite_failed_conditions (sv : ClaimNow.Server)
    (positions : list Position.t) :
  rendersFailures w →
  truthy (ClaimNow.PRIVATE_KEY env) = true →
  getPositions w (calls (ClaimNow.run sv)) (MY_ADDRESS env) 200
  = Returned positions →
  (∀ e, ¬ setupThrows w env (ClaimNow.run sv)
            (default "" (ClaimNow.PRIVATE_KEY env)) (MY_ADDRESS env) e) →
  (∀ h stamp, ClaimNow.setState host h stamp = Returned tt) →
  ∃ resp sv',
    ClaimNow.POST host w env sv = (Returned resp, sv') ∧ status resp = 200%Z.
Proof.
  intros Hw Hkey Hpositions Hsetup Hstore. rewrite POST_with_key by done.
  unfold setupThrows in Hsetup.
  claimWinnings_cases w env (default "" (ClaimNow.PRIVATE_KEY env))
    (MY_ADDRESS env) (ClaimNow.run sv);
    try done; try (by loop_cannot_throw Hw Hloop);
    simpl; rewrite ?Hstore; eauto.
  - destruct (Hsetup e). eauto.
  - destruct (Hsetup e). eauto.
Qed.

End ClaimNowFacts.

Lemma POST_without_key_witness :
  ClaimNow.POST Scenario2.acceptingHost (Scenario2.steady Scenario.threeConditions)
    Scenario.relayerEnv ClaimNow.idle
  = (Returned {| status := 500;
                 body := ClaimNow.ErrorOnly "PRIVATE_KEY not configured" |},
     ClaimNow.idle).
Proof. apply POST_without_key. left. reflexivity. Defined.

Lemma POST_ok_reports_the_run_witness :
  ∃ r,
    body {| status := 200;
            body := ClaimNow.Claimed 2 1 ["0xb2…: execution reverted"]
                      ["0xhash1"; "0xhash3"] |}
    = ClaimNow.Claimed (claimed r) (failed r) (errors r) (txHashes r)
    ∧ claimed r = length (txHashes r)
    ∧ failed r = length (errors r).
Proof.
  destruct (POST_ok_reports_the_run Scenario2.acceptingHost
              (Scenario.scripted (Returned Scenario.threeConditions) (Returned tt)
                 Scenario.secondFailsScript)
              Scenario2.keyedEnv ClaimNow.idle
              Scenario2.partlyFailedRequest.2
              {| status := 200;
                 body := ClaimNow.Claimed 2 1 ["0xb2…: execution reverted"]
                           ["0xhash1"; "0xhash3"] |})
    as (r & _ & Hbody & Hclaimed & Hfailed & _);
    [vm_compute; reflexivity | reflexivity |].
  by exists r.
Defined.

Lemma POST_throws_only_from_its_catch_witness :
  ∃ sv',
    ClaimNow.POST Scenario2.acceptingHost Scenario2.unprintableFetch
      Scenario2.keyedEnv ClaimNow.idle
    = (Threw Scenario.notPrintable, sv').
Proof.
  apply (proj1 (POST_throws_only_from_its_catch Scenario2.acceptingHost
                  Scenario2.unprintableFetch Scenario2.keyedEnv ClaimNow.idle)
           Scenario.notPrintable).
  split; [reflexivity |].
  exists (Unprintable Scenario.notPrintable). split; [| reflexivity].
  left. reflexivity.
Defined.

Lemma POST_failure_causes_witness :
  (truthy (ClaimNow.PRIVATE_KEY Scenario2.keyedEnv) = false
   ∧ Scenario2.rejectedRequest.2 = ClaimNow.idle
   ∧ body {| status := 500;
             body := ClaimNow.NotClaimed (Some "invalid private key") |}
     = ClaimNow.ErrorOnly "PRIVATE_KEY not configured")
  ∨ (∃ e err,
       claimWinnings Scenario.rejectedKey Scenario2.keyedEnv
         (default "" (ClaimNow.PRIVATE_KEY Scenario2.keyedEnv))
         (MY_ADDRESS Scenario2.keyedEnv) (ClaimNow.run ClaimNow.idle)
       = (Threw e, ClaimNow.run Scenario2.rejectedRequest.2)
       ∧ errOf e = Returned err
       ∧ body {| status := 500;
                 body := ClaimNow.NotClaimed (Some "invalid private key") |}
         = ClaimNow.NotClaimed err
       ∧ ClaimNow.stamps Scenario2.rejectedRequest.2 = ClaimNow.stamps ClaimNow.idle)
  ∨ (∃ r e err,
       claimWinnings Scenario.rejectedKey Scenario2.keyedEnv
         (default "" (ClaimNow.PRIVATE_KEY Scenario2.keyedEnv))
         (MY_ADDRESS Scenario2.keyedEnv) (ClaimNow.run ClaimNow.idle)
       = (Returned r, ClaimNow.run Scenario2.rejectedRequest.2)
       ∧ ClaimNow.setState Scenario2.acceptingHost
           (calls (ClaimNow.run Scenario2.rejectedRequest.2))
           {| ClaimNow.lastClaimAt :=
                ClaimNow.now Scenario2.acceptingHost
                  (calls (ClaimNow.run Scenario2.rejectedRequest.2));
              ClaimNow.lastClaimResult := (claimed r, failed r) |}
         = Threw e
       ∧ errOf e = Returned err
       ∧ body {| status := 500;
                 body := ClaimNow.NotClaimed (Some "invalid private key") |}
         = ClaimNow.NotClaimed err).
Proof.
  apply (POST_failure_causes Scenario2.acceptingHost Scenario.rejectedKey
           Scenario2.keyedEnv ClaimNow.idle Scenario2.rejectedRequest.2
           {| status := 500;
              body := ClaimNow.NotClaimed (Some "invalid private key") |});
    [vm_compute; reflexivity | reflexivity].
Defined.

Lemma POST_ok_despite_failed_conditions_witness :
  ∃ resp sv',
    ClaimNow.POST Scenario2.acceptingHost
      (Scenario.scripted (Returned Scenario.threeConditions) (Returned tt)
         Scenario.secondFailsScript)
      Scenario2.keyedEnv ClaimNow.idle
    = (Returned resp, sv')
    ∧ status resp = 200%Z.
Proof.
  apply (POST_ok_despite_failed_conditions Scenario2.acceptingHost
           (Scenario.scripted (Returned Scenario.threeConditions) (Returned tt)
              Scenario.secondFailsScript)
           Scenario2.keyedEnv ClaimNow.idle Scenario.threeConditions).
  - apply secondFailsScript_renders.
  - reflexivity.
  - reflexivity.
  - intros e (ps & _ & _ & Hthrows). vm_compute in Hthrows. discriminate.
  - reflexivity.
Defined.

Lemma MY_ADDRESS_defined (env : gmap string string) (a : string) :
  env !! "MY_ADDRESS" = Some a → MY_ADDRESS env = a.
Proof. intros Ha. unfold MY_ADDRESS. by rewrite Ha. Qed.

(** X19: the wallet address is taken from the environment whenever
    [MY_ADDRESS] is defined, even as the empty string: with a signing key,
    the first call of [POST] is the position fetch for that very value, and
    the built-in address is not used. *)
Theorem POST_fetches_for_defined_address (host : ClaimNow.Host) (w : World)
    (env : gmap string string) (sv : ClaimNow.Server) (a : string) :
  truthy (ClaimNow.PRIVATE_KEY env) = true →
  env !! "MY_ADDRESS" = Some a →
  ∃ rest,
    calls (ClaimNow.run (ClaimNow.POST host w env sv).2)
    = calls (ClaimNow.run sv) ++ GetPositions a 200 :: rest.
Proof.
  intros Hkey Ha. rewrite (POST_with_key _ _ _ _ Hkey), (MY_ADDRESS_defined _ _ Ha).
  destruct (claimWinnings_starts_with_fetch w env
              (default "" (ClaimNow.PRIVATE_KEY env)) a (ClaimNow.run sv))
    as (rest & Hcalls).
  exists rest. rewrite <- Hcalls.
  by destruct (claimWinnings _ _ _ _ _) as [[r|e] s'].
Qed.

Lemma POST_fetches_for_defined_address_witness :
  ∃ rest,
    calls (ClaimNow.run
             (ClaimNow.POST Scenario2.acceptingHost
                (Scenario2.steady Scenario.threeConditions)
                (<["MY_ADDRESS" := ""]> Scenario2.keyedEnv) ClaimNow.idle).2)
    = calls (ClaimNow.run ClaimNow.idle) ++ GetPositions "" 200 :: rest.
Proof.
  apply POST_fetches_for_defined_address; reflexivity.
Defined.

(** ** The status route *)

Section StatusFacts.

Variables Config Value Activity Stats : Type.
Variable env : gmap string string.
Variable getConfig : Completion Config.
Variable getRecentActivity : Completion Activity.
Variable getPaperStats : Completion Stats.

(** A failed balance lookup reads as a balance of 0. *)
Lemma balance_failure_reads_zero (getState : Completion (gmap string Value))
    (getCashBalance : string → Completion JsNumber) (e : Thrown) :
  getCashBalance (MY_ADDRESS env) = Threw e →
  StatusRoute.GET env getConfig getState getCashBalance getRecentActivity
    getPaperStats
  = StatusRoute.GET env getConfig getState (λ _, Returned (Finite 0))
      getRecentActivity getPaperStats.
Proof. intros Hbalance. unfold StatusRoute.GET. by rewrite Hbalance. Qed.

(** X20: the status is 200 exactly when configuration, state, activity
    and statistics all load, whatever the balance lookup does; otherwise
    the answer is 500 with one fixed text, which carries nothing of what
    was thrown. *)
Theorem status_ok_iff (getState : Completion (gmap string Value))
    (getCashBalance : string → Completion JsNumber) :
  (status (StatusRoute.GET env getConfig getState getCashBalance
             getRecentActivity getPaperStats) = 200%Z
   ↔ ∃ config state activity stats,
       getConfig = Returned config ∧ getState = Returned state
       ∧ getRecentActivity = Returned activity ∧ getPaperStats = Returned stats)
  ∧ (status (StatusRoute.GET env getConfig getState getCashBalance
               getRecentActivity getPaperStats) = 200%Z
     ∨ StatusRoute.GET env getConfig getState getCashBalance getRecentActivity
         getPaperStats
       = {| status := 500;
            body := StatusRoute.LoadFailed "Failed to load status" |}).
Proof.
  unfold StatusRoute.GET.
  destruct getConfig as [c|?], getState as [st|?],
    (getCashBalance (MY_ADDRESS env)) as [b|?],
    getRecentActivity as [a|?], getPaperStats as [p|?]; simpl;
    (split; [split; [try done; by eauto 8
                    | by intros (? & ? & ? & ? & ? & ? & ? & ?)]
            | by (left + right)]).
Qed.

(** X21: of the stored state the status shows the seven listed fields and
    nothing else: setting any other field of the state, to any value,
    leaves the answer as it was. *)
Theorem unlisted_state_is_not_shown (state : gmap string Value)
    (getCashBalance : string → Completion JsNumber) (k : string) (v : Value) :
  k ∉ StatusRoute.exposed →
  StatusRoute.GET env getConfig (Returned (<[k := v]> state)) getCashBalance
    getRecentActivity getPaperStats
  = StatusRoute.GET env getConfig (Returned state) getCashBalance
      getRecentActivity getPaperStats.
Proof.
  intros Hk. unfold StatusRoute.exposed in Hk.
  repeat (apply not_elem_of_cons in Hk as [? Hk]).
  unfold StatusRoute.GET, StatusRoute.viewOf.
  by rewrite !lookup_insert_ne by done.
Qed.

End StatusFacts.

Lemma balance_failure_reads_zero_witness :
  StatusRoute.GET ∅ (Returned tt) (Returned (∅ : gmap string nat))
    (λ _, Threw (ErrorObject "rpc down")) (Returned tt) (Returned tt)
  = StatusRoute.GET ∅ (Returned tt) (Returned (∅ : gmap string nat))
      (λ _, Returned (Finite 0)) (Returned tt) (Returned tt).
Proof.
  apply (balance_failure_reads_zero unit nat unit unit ∅ (Returned tt)
           (Returned tt) (Returned tt) (Returned ∅)
           (λ _, Threw (ErrorObject "rpc down")) (ErrorObject "rpc down")).
  reflexivity.
Defined.

Lemma status_ok_iff_witness :
  status (StatusRoute.GET ∅ (Returned tt) (Returned (∅ : gmap string nat))
            (λ _, Threw (ErrorObject "rpc down")) (Returned tt) (Returned tt))
  = 200%Z.
Proof.
  apply (status_ok_iff unit nat unit unit ∅ (Returned tt) (Returned tt)
           (Returned tt) (Returned ∅) (λ _, Threw (ErrorObject "rpc down"))).
  by exists tt, ∅, tt, tt.
Defined.

Lemma unlisted_state_is_not_shown_witness :
  StatusRoute.GET ∅ (Returned tt)
    (Returned (<["apiSecret" := 7]> ({["lastError" := 3]} : gmap string nat)))
    (λ _, Returned (Finite 0)) (Returned tt) (Returned tt)
  = StatusRoute.GET ∅ (Returned tt)
      (Returned ({["lastError" := 3]} : gmap string nat))
      (λ _, Returned (Finite 0)) (Returned tt) (Returned tt).
Proof.
  apply (unlisted_state_is_not_shown unit nat unit unit ∅ (Returned tt)
           (Returned tt) (Returned tt) {["lastError" := 3]}
           (λ _, Returned (Finite 0)) "apiSecret" 7).
  unfold StatusRoute.exposed. intros Hin.
  repeat (apply elem_of_cons in Hin as [Hin | Hin]; [discriminate Hin |]).
  by apply elem_of_nil in Hin.
Defined.
